(** * remote-shell: the server's session and executor, and the client's reader

    A shallow embedding of [server/server.go] and [client/client.go].
    The operating system, the shell and the TLS library are outside the
    repository: what the sources ask of them is kept as data (the argument
    vector handed to the kernel, the fields of the TLS configuration) and
    what they answer is an input of the model (which bytes a process prints,
    how it exits, when a line arrives). *)

From Stdlib Require Import String Ascii List Bool Arith NArith Lia.
Import ListNotations.

Open Scope string_scope.
Open Scope list_scope.

Set Implicit Arguments.

(** ** Bytes and lines *)

(** The newline byte; Go's escape [\n]. *)
Definition nl : string := String (ascii_of_nat 10) EmptyString.

(** The double quote byte. *)
Definition dq : string := String (ascii_of_nat 34) EmptyString.

(** What a connection has been asked to send: one entry per [Write] call,
    oldest first. *)
Definition Conn := list string.

(** The byte stream the peer reads off a connection. *)
Definition wire (c : Conn) : string := fold_right append EmptyString c.

(** [split_at n s]: the first [n] bytes of [s] and the rest. *)
Fixpoint split_at (n : nat) (s : string) : string * string :=
  match n, s with
  | S k, String a r => let (h, t) := split_at k r in (String a h, t)
  | _, _ => (EmptyString, s)
  end.

(** ** The two source variants

    The tree holds the server twice; the copies differ in logging and in
    the text of the error returned for a failed command. *)
Inductive Variant := ServerGo | Part000.

(** ** Constants of [server.go] *)

(** [TIMEOUT = 100 * time.Second], in milliseconds. *)
Definition TIMEOUT : N := 100 * 1000.

(** The argument of [time.After] in [Stop], in milliseconds. *)
Definition GRACE : N := 1000.

Definition EOF_LINE : string := "EOF" ++ nl.
Definition TERMINATE_LINE : string := "TERMINATE" ++ nl.

(** The bytes [executeCommand] writes after a command that did not fail:
    [conn.Write([]byte("\nEOF\n"))]. *)
Definition END_OF_OUTPUT : string := nl ++ "EOF" ++ nl.

Definition TIMEOUT_NOTICE : string :=
  "Client session duration exceeded. Disconnecting..." ++ nl.

(** ** Processes, as the executor sees them *)

(** What [ulimitCmd.Wait()] reports. *)
Inductive WaitStatus :=
| ExitZero
| ExitError (detail : string)   (* [*exec.ExitError]: non-zero exit or signal *)
| WaitFailed (detail : string). (* any other error of [Wait] *)

Record Process := mkProcess {
  stdout : string;      (* every byte the process prints on standard output *)
  status : WaitStatus;
  run_ms : N            (* wall-clock time from start to exit *)
}.

(** What asking the kernel to run an argument vector leads to. *)
Inductive Spawn :=
| PipeError (e : string)    (* [StdoutPipe] failed *)
| StartError (e : string)   (* [Start] failed *)
| Running (p : Process).

Definition OS := list string -> Spawn.

(** ** [executeCommand]: the argument vectors *)

(** [exec.Command(name, arg...)] sets [Args] to [name] followed by [arg]. *)
Definition exec_Command (name : string) (arg : list string) : list string :=
  name :: arg.

(** [cmd := exec.Command("sh", "-c", command)]: built, used for its
    [SysProcAttr] only, never started. *)
Definition cmd_argv (command : string) : list string :=
  exec_Command "sh" ["-c"; command].

(** The script text [ulimit -t 5; exec "$@"]. *)
Definition LIMITER_SCRIPT : string :=
  "ulimit -t 5; exec " ++ dq ++ "$@" ++ dq.

(** [ulimitCmd := exec.Command("sh", "-c", script, "--", command)] with
    the limiter script for [script]: the vector that is started. *)
Definition ulimit_argv (command : string) : list string :=
  exec_Command "sh" ["-c"; LIMITER_SCRIPT; "--"; command].

(** The error [executeCommand] returns for an [*exec.ExitError]:
    [fmt.Errorf("Command exited with status: %v", exitErr)] in
    [server.go], [exitErr] itself in the other copy. *)
Definition exit_error (v : Variant) (detail : string) : string :=
  match v with
  | ServerGo => "Command exited with status: " ++ detail
  | Part000 => detail
  end.

(** What the relay goroutine has written once it has copied all of
    [out]: [io.Copy] issues no [Write] for an empty stream. *)
Definition relayed (out : string) : Conn :=
  match out with
  | EmptyString => []
  | _ => [out]
  end.

(** What the caller returns, and what it writes before returning. *)
Definition returned_error (v : Variant) (st : WaitStatus) : option string :=
  match st with
  | ExitError d => Some (exit_error v d)
  | ExitZero | WaitFailed _ => None
  end.

Definition closing_write (st : WaitStatus) : Conn :=
  match st with
  | ExitError _ => []
  | ExitZero | WaitFailed _ => [END_OF_OUTPUT]
  end.

(** [executeCommand(conn, command)], in the run where the relay goroutine
    has drained the pipe by the time [Wait] returns.  The other
    interleavings of the two goroutines are the subject of [Module Relay].
    The result is the connection after the call and the returned error. *)
Definition executeCommand (v : Variant) (os : OS) (conn : Conn)
    (command : string) : Conn * option string :=
  match os (ulimit_argv command) with
  | PipeError e => (conn, Some e)
  | StartError e => (conn, Some e)
  | Running p =>
      let conn1 := conn ++ relayed (stdout p) in
      match status p with
      | ExitError d => (conn1, Some (exit_error v d))
      | ExitZero | WaitFailed _ => (conn1 ++ [END_OF_OUTPUT], None)
      end
  end.

(** Wall-clock time the call takes. *)
Definition executeCommand_ms (os : OS) (command : string) : N :=
  match os (ulimit_argv command) with
  | Running p => run_ms p
  | _ => 0%N
  end.

(** ** The shell, as far as the executor relies on it

    [sh -c command_string [command_name [argument...]]]: the shell parses
    [command_string]; [command_name] becomes [$0] and the arguments the
    positional parameters [$1], [$2], ... *)
Module Sh.

Record Invocation := mkInvocation {
  command_string : string;
  command_name : option string;
  positional : list string
}.

Definition parse (argv : list string) : option Invocation :=
  match argv with
  | "sh" :: "-c" :: cs :: rest =>
      Some (mkInvocation cs (hd_error rest) (tl rest))
  | _ => None
  end.

(** Field splitting of a simple command without quoting or operators:
    blanks separate the words. *)
Fixpoint fields (cur : string) (s : string) : list string :=
  match s with
  | EmptyString =>
      match cur with EmptyString => [] | _ => [cur] end
  | String a r =>
      if Ascii.eqb a " "%char
      then match cur with
           | EmptyString => fields EmptyString r
           | _ => cur :: fields EmptyString r
           end
      else fields (cur ++ String a EmptyString)%string r
  end.

Definition words (s : string) : list string := fields EmptyString s.

(** The vector of the program the shell ends up running.  In the limiter
    script the quoted [$@] expands to the positional parameters, one field
    each, with no further splitting, and [exec] runs that vector.  Any
    other command string is read as a simple command. *)
Definition program_vector (i : Invocation) : list string :=
  if command_string i =? LIMITER_SCRIPT
  then positional i
  else words (command_string i).

End Sh.

(** A small machine for worked examples: four programs on the search path;
    a vector whose first word names none of them makes the shell fail with
    status 127. *)
Definition demo_programs (vec : list string) : Process :=
  match vec with
  | "echo" :: args =>
      mkProcess (String.concat " " args ++ nl)%string ExitZero 1
  | "true" :: _ => mkProcess EmptyString ExitZero 1
  | "false" :: _ => mkProcess EmptyString (ExitError "exit status 1") 1
  | "hostname" :: _ => mkProcess ("hello" ++ nl)%string ExitZero 1
  | _ => mkProcess EmptyString (ExitError "exit status 127") 1
  end.

Definition demo_os : OS := fun argv =>
  match Sh.parse argv with
  | Some i => Running (demo_programs (Sh.program_vector i))
  | None => StartError "exec: not started"
  end.

(** ** The two goroutines of [executeCommand]

    After [Start] the caller blocks in [Wait] while a goroutine runs
    [io.Copy(conn, outputPipe)].  Nothing joins that goroutine: the caller
    goes on as soon as the process has exited.  [Wait] closes the read end
    of the pipe when it returns (the contract of [StdoutPipe]). *)
Module Relay.

Inductive Copier :=
| Reading                    (* in [outputPipe.Read] *)
| Holding (chunk : string)   (* read a chunk, about to [conn.Write] it *)
| CopyDone (clean : bool).   (* [io.Copy] returned: end of file, or error *)

Inductive Caller :=
| InWait
| Waited
| Returned (err : option string).

Record St := mkSt {
  to_print : string;   (* what the process has yet to print *)
  exited : bool;
  pipe : string;       (* printed, not yet read by the copier *)
  rd_closed : bool;    (* read end closed by [Wait] *)
  copier : Copier;
  caller : Caller;
  sink : Conn
}.

Definition init (p : Process) (conn : Conn) : St :=
  mkSt (stdout p) false EmptyString false Reading InWait conn.

Inductive Label :=
| ProcPrint (n : nat)   (* the process writes its next [n] bytes *)
| ProcExit
| CopyRead (n : nat)    (* the copier reads [n] bytes off the pipe *)
| CopyWrite
| CopyEnd               (* the copier's read reports end of file or error *)
| WaitReturns
| CallerFinish.

Definition held (c : Copier) : string :=
  match c with Holding chunk => chunk | _ => EmptyString end.

Definition step (v : Variant) (st : WaitStatus) (l : Label) (s : St)
    : option St :=
  match l with
  | ProcPrint n =>
      if exited s then None
      else if ((n =? 0)%nat || (String.length (to_print s) <? n)%nat)%bool
      then None
      else let (h, t) := split_at n (to_print s) in
           Some (mkSt t false (pipe s ++ h)%string (rd_closed s)
                      (copier s) (caller s) (sink s))
  | ProcExit =>
      if exited s then None
      else match to_print s with
           | EmptyString =>
               Some (mkSt EmptyString true (pipe s) (rd_closed s)
                          (copier s) (caller s) (sink s))
           | _ => None
           end
  | CopyRead n =>
      match copier s with
      | Reading =>
          if rd_closed s then None
          else if ((n =? 0)%nat || (String.length (pipe s) <? n)%nat)%bool
          then None
          else let (h, t) := split_at n (pipe s) in
               Some (mkSt (to_print s) (exited s) t false
                          (Holding h) (caller s) (sink s))
      | _ => None
      end
  | CopyWrite =>
      match copier s with
      | Holding chunk =>
          Some (mkSt (to_print s) (exited s) (pipe s) (rd_closed s)
                     Reading (caller s) (sink s ++ [chunk]))
      | _ => None
      end
  | CopyEnd =>
      match copier s with
      | Reading =>
          if rd_closed s
          then Some (mkSt (to_print s) (exited s) (pipe s) true
                          (CopyDone false) (caller s) (sink s))
          else match pipe s with
               | EmptyString =>
                   if exited s
                   then Some (mkSt (to_print s) true EmptyString false
                                   (CopyDone true) (caller s) (sink s))
                   else None
               | _ => None
               end
      | _ => None
      end
  | WaitReturns =>
      match caller s with
      | InWait =>
          if exited s
          then Some (mkSt (to_print s) true (pipe s) true
                          (copier s) Waited (sink s))
          else None
      | _ => None
      end
  | CallerFinish =>
      match caller s with
      | Waited =>
          match st with
          | ExitError d =>
              Some (mkSt (to_print s) (exited s) (pipe s) (rd_closed s)
                         (copier s) (Returned (Some (exit_error v d)))
                         (sink s))
          | ExitZero | WaitFailed _ =>
              Some (mkSt (to_print s) (exited s) (pipe s) (rd_closed s)
                         (copier s) (Returned None)
                         (sink s ++ [END_OF_OUTPUT]))
          end
      | _ => None
      end
  end.

(** Run a schedule; [None] when a step is not enabled. *)
Fixpoint run (v : Variant) (st : WaitStatus) (sched : list Label) (s : St)
    : option St :=
  match sched with
  | [] => Some s
  | l :: ls =>
      match step v st l s with
      | Some s' => run v st ls s'
      | None => None
      end
  end.

(** The states the two goroutines and the process can reach. *)
Inductive reach (v : Variant) (p : Process) (conn : Conn) : St -> Prop :=
| reach_init : reach v p conn (init p conn)
| reach_step : forall s l s',
    reach v p conn s -> step v (status p) l s = Some s' ->
    reach v p conn s'.

(** The schedule of [executeCommand] above: the process prints and exits,
    the copier drains the pipe and sees end of file, then [Wait]
    returns. *)
Definition drained (out : string) : list Label :=
  match out with
  | EmptyString => [ProcExit; CopyEnd; WaitReturns; CallerFinish]
  | _ => [ProcPrint (String.length out); ProcExit;
          CopyRead (String.length out); CopyWrite; CopyEnd;
          WaitReturns; CallerFinish]
  end.

(** While the caller is in [Wait] nothing is lost: written, held, in
    the pipe and still to print make up the output. *)
Definition accounted (p : Process) (conn : Conn) (s : St) : Prop :=
  (wire (sink s) ++ held (copier s) ++ pipe s ++ to_print s)%string
  = (wire conn ++ stdout p)%string.

(** Once the copier has seen the end of the output, the connection holds
    all of it, and the marker after it if the caller has written one. *)
Definition settled (p : Process) (conn : Conn) (s : St) : Prop :=
  match caller s with
  | InWait | Waited | Returned (Some _) =>
      wire (sink s) = (wire conn ++ stdout p)%string
  | Returned None =>
      wire (sink s) = (wire conn ++ stdout p ++ END_OF_OUTPUT)%string
  end.

Record inv (p : Process) (conn : Conn) (s : St) : Prop := mkInv {
  inv_wait : caller s = InWait ->
             rd_closed s = false /\ accounted p conn s;
  inv_open : rd_closed s = false -> caller s = InWait;
  inv_exit : exited s = true -> to_print s = EmptyString;
  inv_done : copier s = CopyDone true -> settled p conn s
}.

End Relay.

(** ** The session handler: [handleConnection] *)

(** A line delivered by [scanner.Scan()]: when it is complete on the
    connection (milliseconds since the session began), its text without the
    line terminator, and the runtime's pick should the [select] that
    follows find both of its channels ready ([true]: the shutdown case). *)
Record Arrival := mkArrival {
  at_ms : N;
  text : string;
  coin : bool
}.

(** What follows the last line: the read ends (peer closed, or a read
    error), or nothing ever comes and the connection stays open. *)
Inductive Ending :=
| PeerCloses (at_ms : N)
| PeerSilent.

Inductive Selected := SelShutdown | SelTimeout | SelDefault.

(** [select { case <-s.shutdown: ...  case <-ctx.Done(): ...  default: ... }]:
    the default runs only when neither channel is ready; of two ready
    channels the runtime picks one. *)
Definition select (shutdown_ready timeout_ready pick_shutdown : bool)
    : Selected :=
  match shutdown_ready, timeout_ready with
  | true, true => if pick_shutdown then SelShutdown else SelTimeout
  | true, false => SelShutdown
  | false, true => SelTimeout
  | false, false => SelDefault
  end.

(** [ctx.Done()] is ready from [TIMEOUT] after the session began. *)
Definition deadline_passed (now : N) : bool := N.leb TIMEOUT now.

(** [s.shutdown] is ready from the moment [Stop] closed it. *)
Definition shutdown_raised (stop_at : option N) (now : N) : bool :=
  match stop_at with
  | Some t => N.leb t now
  | None => false
  end.

Inductive Reason := ByExit | ByShutdown | ByTimeout | ByReadEnd.

Inductive Outcome :=
| Closed (why : Reason)   (* the handler returned; [defer conn.Close()] ran *)
| BlockedInScan.          (* still inside [scanner.Scan()], connection open *)

Record Session := mkSession {
  writes : Conn;          (* everything written to the connection *)
  ran : list string;      (* the commands handed to [executeCommand] *)
  clock : N;              (* when the handler got to where it is *)
  outcome : Outcome
}.

(** [handleTimeout]: the notice, then the terminate marker. *)
Definition handleTimeout (conn : Conn) : Conn :=
  conn ++ [TIMEOUT_NOTICE; TERMINATE_LINE].

(** The two writes of the handler after [executeCommand] returned [err]. *)
Definition report_error (conn : Conn) (err : string) : Conn :=
  conn ++ [("Error executing command:" ++ err ++ nl)%string; EOF_LINE].

(** [handleConnection]: [for scanner.Scan() { select { ... } }].  The
    handler looks at the shutdown channel and at the deadline only once
    [Scan] has returned a line. *)
Fixpoint handleConnection (v : Variant) (os : OS) (stop_at : option N)
    (lines : list Arrival) (ending : Ending)
    (now : N) (conn : Conn) (done : list string) : Session :=
  match lines with
  | [] =>
      match ending with
      | PeerCloses t => mkSession conn done (N.max now t) (Closed ByReadEnd)
      | PeerSilent => mkSession conn done now BlockedInScan
      end
  | a :: rest =>
      let now := N.max now (at_ms a) in
      match select (shutdown_raised stop_at now) (deadline_passed now)
                   (coin a) with
      | SelShutdown => mkSession conn done now (Closed ByShutdown)
      | SelTimeout =>
          mkSession (handleTimeout conn) done now (Closed ByTimeout)
      | SelDefault =>
          if text a =? "exit"
          then mkSession conn done now (Closed ByExit)
          else
            let (conn1, err) := executeCommand v os conn (text a) in
            let conn2 := match err with
                         | Some e => report_error conn1 e
                         | None => conn1
                         end in
            handleConnection v os stop_at rest ending
              (now + executeCommand_ms os (text a)) conn2
              (done ++ [text a])
      end
  end.

(** A session from its start. *)
Definition session (v : Variant) (os : OS) (stop_at : option N)
    (lines : list Arrival) (ending : Ending) : Session :=
  handleConnection v os stop_at lines ending 0 [] [].

(** ** The service: [Server], [Start], [Stop] and the two loops *)

(** A [chan struct{}] used as a broadcast: open, or closed. *)
Inductive Chan := ChanOpen | ChanClosed.

(** A call either runs to its end or panics. *)
Inductive Ran (A : Type) :=
| Done (a : A)
| Panicked (msg : string).
Arguments Done {A} a.
Arguments Panicked {A} msg.

(** Go's [close(ch)]: closing a closed channel panics. *)
Definition close (c : Chan) : Ran Chan :=
  match c with
  | ChanOpen => Done ChanClosed
  | ChanClosed => Panicked "close of closed channel"
  end.

Definition is_closed (c : Chan) : bool :=
  match c with ChanClosed => true | ChanOpen => false end.

Inductive AcceptLoop :=
| AtSelect                 (* at the top of the [for] *)
| InAccept                 (* in [s.listener.Accept()] *)
| Sending (c : nat)        (* in [s.connection <- conn] *)
| AcceptExited.

Inductive DispatchLoop := Dispatching | DispatchExited.

(** Where a running [handleConnection] is: in [scanner.Scan()], or inside
    [executeCommand] with a command that needs [left_ms] more to exit. *)
Inductive Phase := READING | EXECUTING (left_ms : N).

(** A running [handleConnection]: its connection and where it is. *)
Record Handler := mkHandler {
  peer : nat;
  sock_open : bool;
  phase : Phase
}.

(** A handler left to itself for [t] milliseconds, no line arriving: a
    command that exits in that time is answered and the handler is back
    in [Scan]. *)
Definition elapse (t : N) (h : Handler) : Handler :=
  match phase h with
  | READING => h
  | EXECUTING more =>
      if N.leb more t
      then mkHandler (peer h) (sock_open h) READING
      else mkHandler (peer h) (sock_open h) (EXECUTING (more - t))
  end.


Record Server := mkServer {
  shutdown : Chan;
  listener_open : bool;
  wg : nat;                      (* [sync.WaitGroup] counter *)
  accept_loop : AcceptLoop;
  dispatch_loop : DispatchLoop;
  handlers : list Handler        (* started by [go s.handleConnection] *)
}.

(** [NewServer], once the certificates are loaded and the listener is up. *)
Definition NewServer : Server :=
  mkServer ChanOpen true 0 AcceptExited DispatchExited [].

(** [Start]: [s.wg.Add(2)] and the two loops. *)
Definition Start (s : Server) : Server :=
  mkServer (shutdown s) (listener_open s) (wg s + 2)
           AtSelect Dispatching (handlers s).

(** One move of [AcceptConnections]; [incoming] is a client completing a
    connection while the loop sits in [Accept]. *)
Definition accept_step (incoming : option nat) (s : Server) : Server :=
  match accept_loop s with
  | AtSelect =>
      if is_closed (shutdown s)
      then mkServer (shutdown s) (listener_open s) (wg s - 1)
                    AcceptExited (dispatch_loop s) (handlers s)
      else mkServer (shutdown s) (listener_open s) (wg s)
                    InAccept (dispatch_loop s) (handlers s)
  | InAccept =>
      if listener_open s
      then match incoming with
           | Some c => mkServer (shutdown s) true (wg s)
                                (Sending c) (dispatch_loop s) (handlers s)
           | None => s
           end
      else mkServer (shutdown s) false (wg s)
                    AtSelect (dispatch_loop s) (handlers s)
  | Sending _ => s
  | AcceptExited => s
  end.

(** One move of [handleConnections]: [select] between the shutdown channel
    and the hand-off channel. *)
Definition dispatch_step (pick_shutdown : bool) (s : Server) : Server :=
  match dispatch_loop s with
  | DispatchExited => s
  | Dispatching =>
      let leave := mkServer (shutdown s) (listener_open s) (wg s - 1)
                            (accept_loop s) DispatchExited (handlers s) in
      match accept_loop s with
      | Sending c =>
          if is_closed (shutdown s) && pick_shutdown
          then leave
          else mkServer (shutdown s) (listener_open s) (wg s)
                        AtSelect Dispatching
                        (handlers s ++ [mkHandler c true READING])
      | _ => if is_closed (shutdown s) then leave else s
      end
  end.

(** How long [Stop] stays in its final [select]: [drained] is when
    [s.wg.Wait()] would return, if ever. *)
Definition stop_wait (drained : option N) : N :=
  match drained with
  | Some t => N.min t GRACE
  | None => GRACE
  end.

(** [Stop]: [close(s.shutdown)], [s.listener.Close()], then the bounded
    wait.  The result is the server when the call returns and the time the
    call took.  [Stop] holds no reference to the handlers: they go on by
    themselves while it waits. *)
Definition Stop (drained : option N) (s : Server) : Ran (Server * N) :=
  match close (shutdown s) with
  | Panicked m => Panicked m
  | Done c =>
      Done (mkServer c false (wg s) (accept_loop s) (dispatch_loop s)
                     (map (elapse (stop_wait drained)) (handlers s)),
            stop_wait drained)
  end.


(** A command line reaches the handler of connection [c] while it is in
    [Scan], before its deadline: with the shutdown raised the handler
    returns and its deferred [conn.Close()] runs; otherwise it calls
    [executeCommand] with a command that takes [needs_ms]. *)
Definition handler_line (c : nat) (needs_ms : N) (raised : bool)
    (h : Handler)
    : Handler :=
  match phase h with
  | READING =>
      if Nat.eqb (peer h) c && sock_open h
      then if raised
           then mkHandler (peer h) false READING
           else mkHandler (peer h) true (EXECUTING needs_ms)
      else h
  | EXECUTING _ => h
  end.

Definition line_step (c : nat) (needs_ms : N) (s : Server) : Server :=
  mkServer (shutdown s) (listener_open s) (wg s)
           (accept_loop s) (dispatch_loop s)
           (map (handler_line c needs_ms (is_closed (shutdown s)))
                (handlers s)).

(** The operations that touch a [Server] after [NewServer]. *)
Inductive Op :=
| OpStart
| OpAccept (incoming : option nat)
| OpDispatch (pick_shutdown : bool)
| OpLine (c : nat) (needs_ms : N)
| OpStop (drained : option N).

(** How many times a sequence of operations calls [Stop]. *)
Fixpoint stops (os : list Op) : nat :=
  match os with
  | [] => 0
  | OpStop _ :: rest => S (stops rest)
  | _ :: rest => stops rest
  end.

Definition apply (o : Op) (s : Server) : Ran Server :=
  match o with
  | OpStart => Done (Start s)
  | OpAccept i => Done (accept_step i s)
  | OpDispatch b => Done (dispatch_step b s)
  | OpLine c ms => Done (line_step c ms s)
  | OpStop d =>
      match Stop d s with
      | Done (s', _) => Done s'
      | Panicked m => Panicked m
      end
  end.

Fixpoint apply_all (os : list Op) (s : Server) : Ran Server :=
  match os with
  | [] => Done s
  | o :: rest =>
      match apply o s with
      | Done s' => apply_all rest s'
      | Panicked m => Panicked m
      end
  end.

(** ** TLS configuration: [LoadCertificates] of the client and the server *)
Module TLS.

(** [tls.ClientAuthType]; the zero value is [NoClientCert]. *)
Inductive ClientAuthType :=
| NoClientCert
| RequestClientCert
| RequireAnyClientCert
| VerifyClientCertIfGiven
| RequireAndVerifyClientCert.

(** A certificate, reduced to who it names and who signed it. *)
Record Certificate := mkCertificate {
  subject : string;
  issuer : string
}.

(** [x509.CertPool]: the subjects of the authorities it holds. *)
Definition CertPool := list string.

(** The fields of [tls.Config] the sources set; a field left out of the
    composite literal has its zero value. *)
Record Config := mkConfig {
  Certificates : list Certificate;
  RootCAs : CertPool;
  ClientCAs : CertPool;
  ClientAuth : ClientAuthType;
  InsecureSkipVerify : bool
}.

Definition signed_by (pool : CertPool) (c : Certificate) : bool :=
  existsb (String.eqb (issuer c)) pool.

(** [crypto/tls], client side: with [InsecureSkipVerify] set the client
    accepts any certificate the server presents; otherwise the chain must
    lead to [RootCAs]. *)
Definition client_verifies (cfg : Config) : bool :=
  negb (InsecureSkipVerify cfg).

Definition client_accepts (cfg : Config) (server_cert : Certificate)
    : bool :=
  if InsecureSkipVerify cfg then true
  else signed_by (RootCAs cfg) server_cert.

(** [crypto/tls], server side. *)
Definition server_accepts (cfg : Config)
    (client_cert : option Certificate) : bool :=
  match ClientAuth cfg, client_cert with
  | NoClientCert, _ => true
  | RequestClientCert, _ => true
  | RequireAnyClientCert, Some _ => true
  | RequireAnyClientCert, None => false
  | VerifyClientCertIfGiven, Some c => signed_by (ClientCAs cfg) c
  | VerifyClientCertIfGiven, None => true
  | RequireAndVerifyClientCert, Some c => signed_by (ClientCAs cfg) c
  | RequireAndVerifyClientCert, None => false
  end.

(** The files and the parsers the loaders go through. *)
Record Disk := mkDisk {
  read_file : string -> option string;
  (* [tls.LoadX509KeyPair] on the contents of the two files *)
  key_pair : string -> string -> option Certificate;
  (* the authorities [AppendCertsFromPEM] takes out of a file's contents *)
  pem_authorities : string -> CertPool
}.

Definition LoadX509KeyPair (d : Disk) (certFile keyFile : string)
    : option Certificate :=
  match read_file d certFile, read_file d keyFile with
  | Some c, Some k => key_pair d c k
  | _, _ => None
  end.

Definition CA_FILE : string := "./cert/ca-cert.pem".

(** [client.go], [LoadCertificates]. *)
Definition client_LoadCertificates (d : Disk) : option Config :=
  match LoadX509KeyPair d "./cert/client-cert.pem"
                          "./cert/client-key.pem" with
  | None => None
  | Some cert =>
      match read_file d CA_FILE with
      | None => None
      | Some authority =>
          Some (mkConfig [cert] (pem_authorities d authority) []
                         NoClientCert true)
      end
  end.

(** [server.go], [LoadCertificates]. *)
Definition server_LoadCertificates (d : Disk) : option Config :=
  match LoadX509KeyPair d "./cert/server-cert.pem"
                          "./cert/server-key.pem" with
  | None => None
  | Some cert =>
      match read_file d CA_FILE with
      | None => None
      | Some authority =>
          Some (mkConfig [cert] [] (pem_authorities d authority)
                         RequireAndVerifyClientCert false)
      end
  end.

(** A disk for worked examples: every file holds the name of the
    certificate it stands for; the authority file names one authority. *)
Definition demo_disk : Disk :=
  mkDisk (fun path => Some path)
         (fun c _ => Some (mkCertificate c "remote-shell-ca"))
         (fun _ => ["remote-shell-ca"]).

End TLS.

(** ** The client's reader: [ReceiveResponse] *)

(** How the bytes available to the reader end: the connection is closed
    ([io.EOF]), a read fails, or no more bytes have come yet. *)
Inductive ReadEnd := ReadEOF | ReadError | ReadPending.

Inductive Response :=
| ResponseEnded            (* [break]: the call returns *)
| ProcessExit (code : nat) (* [os.Exit(code)] *)
| AwaitingBytes.           (* blocked in [reader.ReadString] *)

(** [ReceiveResponse]: [cur] is the part of the current line read so far,
    [printed] what [fmt.Print] has put on the terminal.  A line that a
    failed read cuts short is not printed. *)
Fixpoint ReceiveResponse_from (cur : string) (stream : string)
    (ending : ReadEnd) (printed : string) : string * Response :=
  match stream with
  | EmptyString =>
      (printed,
       match ending with
       | ReadPending => AwaitingBytes
       | ReadEOF | ReadError => ResponseEnded
       end)
  | String a r =>
      let line := (cur ++ String a EmptyString)%string in
      if Ascii.eqb a (ascii_of_nat 10)
      then if line =? EOF_LINE then (printed, ResponseEnded)
           else if line =? TERMINATE_LINE then (printed, ProcessExit 9)
           else ReceiveResponse_from EmptyString r ending
                                     (printed ++ line)%string
      else ReceiveResponse_from line r ending printed
  end.

Definition ReceiveResponse (stream : string) (ending : ReadEnd)
    : string * Response :=
  ReceiveResponse_from EmptyString stream ending EmptyString.

(** Lines joined, each with its terminator. *)
Fixpoint unlines (ls : list string) : string :=
  match ls with
  | [] => EmptyString
  | l :: rest => (l ++ nl ++ unlines rest)%string
  end.

(** No newline inside. *)
Fixpoint one_line (s : string) : bool :=
  match s with
  | EmptyString => true
  | String a r => negb (Ascii.eqb a (ascii_of_nat 10)) && one_line r
  end.

(** A line of ordinary output: a single line that is neither marker. *)
Definition plain (l : string) : bool :=
  one_line l && negb (l =? "EOF") && negb (l =? "TERMINATE").

(** ** The server process: [main] *)
Module Main.

Inductive Pc :=
| AtNewServer
| AtStart
| AtChdir
| AtSignalWait
| AtStop
| Exited (code : nat).

(** A command started by some session: its text and the directory the
    child started in. *)
Record Started := mkStarted {
  command : string;
  dir : string;
  after_chdir : bool   (* [os.Chdir] had returned when it started *)
}.

Record Proc := mkProc {
  pc : Pc;
  cwd : string;
  serving : bool;           (* the loops of [Start] are running *)
  started : list Started
}.

Definition launch (from : string) : Proc :=
  mkProc AtNewServer from false [].

Inductive Event :=
| MainStep (ok : bool)          (* [main] runs its next statement *)
| SessionRuns (command : string). (* a session calls [executeCommand] *)

Definition chdir_done (p : Pc) : bool :=
  match p with
  | AtSignalWait | AtStop | Exited 0 => true
  | _ => false
  end.

Definition alive (p : Pc) : bool :=
  match p with Exited _ => false | _ => true end.

(** [main], statement by statement; [ok] says whether the statement
    succeeded ([NewServer], [os.Chdir]).  [log.Fatalf] exits with
    status 1.  [executeCommand] leaves [cmd.Dir] empty, so the child
    starts in the directory the server is in at that moment. *)
Definition step (e : Event) (p : Proc) : Proc :=
  match e with
  | MainStep ok =>
      match pc p with
      | AtNewServer =>
          if ok then mkProc AtStart (cwd p) (serving p) (started p)
          else mkProc (Exited 1) (cwd p) false (started p)
      | AtStart => mkProc AtChdir (cwd p) true (started p)
      | AtChdir =>
          if ok then mkProc AtSignalWait "/" (serving p) (started p)
          else mkProc (Exited 1) (cwd p) false (started p)
      | AtSignalWait => mkProc AtStop (cwd p) (serving p) (started p)
      | AtStop => mkProc (Exited 0) (cwd p) false (started p)
      | Exited _ => p
      end
  | SessionRuns c =>
      if serving p && alive (pc p)
      then mkProc (pc p) (cwd p) true
                  (started p ++ [mkStarted c (cwd p) (chdir_done (pc p))])
      else p
  end.

Definition run (es : list Event) (p : Proc) : Proc :=
  fold_left (fun q e => step e q) es p.

(** A command started after the change of directory started in [/]. *)
Definition root_after_chdir (st : Started) : Prop :=
  after_chdir st = true -> dir st = "/".

(** Once [os.Chdir] has returned the server is in [/], and every command
    started since then started there. *)
Definition main_inv (p : Proc) : Prop :=
  (chdir_done (pc p) = true -> cwd p = "/")
  /\ Forall root_after_chdir (started p).

End Main.

(** ** The session as a whole *)


(** What the handler writes on its way out. *)
Definition farewell (o : Outcome) : Conn :=
  match o with
  | Closed ByTimeout => [TIMEOUT_NOTICE; TERMINATE_LINE]
  | _ => []
  end.

(** ** The relay, whatever the schedule *)

(** The marker, once the caller has written it. *)
Definition marker_of (c : Relay.Caller) : string :=
  match c with
  | Relay.Returned None => END_OF_OUTPUT
  | _ => EmptyString
  end.

(** The connection holds output relayed before the marker ([a]) and after
    it ([b]); with what the copier holds, what is in the pipe and what is
    still to print, that is the output, in order. *)
Definition in_order (p : Process) (conn : Conn) (s : Relay.St) : Prop :=
  exists a b,
    wire (Relay.sink s)
    = (wire conn ++ a ++ marker_of (Relay.caller s) ++ b)%string
    /\ (a ++ b ++ Relay.held (Relay.copier s)
          ++ Relay.pipe s ++ Relay.to_print s)%string
       = stdout p
    /\ (Relay.caller s = Relay.Returned None \/ b = EmptyString).



(** ** The loops and the counter *)

(** The loops of [Start] that have not returned. *)
Definition running_loops (s : Server) : nat :=
  match accept_loop s with AcceptExited => 0 | _ => 1 end
  + match dispatch_loop s with DispatchExited => 0 | _ => 1 end.

Definition is_start (o : Op) : bool :=
  match o with OpStart => true | _ => false end.

(** A run of a server that has been started once. *)
Definition after_start (os : list Op) : bool :=
  forallb (fun o => negb (is_start o)) os.

(** ** The client's writer: [SendCommand] *)

(** [fmt.Fprintf(w, format)] called with a format and no operand, as
    [SendCommand] calls it.  The scan of [doPrintf]: text is copied; after
    a percent sign come flags, a width, a precision and a verb; the verb
    [%] gives a percent sign and any other verb, there being no operand
    for it, the text [%!v(MISSING)] with the verb for [v]; a format that
    ends inside a directive ends in [%!(NOVERB)].  Left out, with result
    [None]: argument indexes, starred widths and precisions, numbers of
    more than six digits and verbs outside ASCII. *)
Module Fmt.

Inductive Scan :=
| InText
| InFlags
| InWidth (digits : nat)
| AfterDot
| InPrec (digits : nat).

Definition is_flag (c : ascii) : bool :=
  Ascii.eqb c "#" || Ascii.eqb c "0" || Ascii.eqb c "+"
  || Ascii.eqb c "-" || Ascii.eqb c " ".

Definition is_digit (c : ascii) : bool :=
  Nat.leb 48 (nat_of_ascii c) && Nat.leb (nat_of_ascii c) 57.

Definition percent : ascii := "%".

(** The verb [c], then the rest of the output. *)
Definition verb (c : ascii) (rest : option string) : option string :=
  if Nat.leb 128 (nat_of_ascii c) then None
  else if Ascii.eqb c percent then option_map (String percent) rest
  else option_map
         (fun r => ("%!" ++ String c "(MISSING)" ++ r)%string) rest.

Fixpoint doPrintf (st : Scan) (format : string) : option string :=
  match format with
  | EmptyString =>
      match st with
      | InText => Some EmptyString
      | _ => Some "%!(NOVERB)"
      end
  | String c r =>
      match st with
      | InText =>
          if Ascii.eqb c percent then doPrintf InFlags r
          else option_map (String c) (doPrintf InText r)
      | InFlags =>
          if is_flag c then doPrintf InFlags r
          else if Ascii.eqb c "[" || Ascii.eqb c "*" then None
          else if is_digit c then doPrintf (InWidth 1) r
          else if Ascii.eqb c "." then doPrintf AfterDot r
          else verb c (doPrintf InText r)
      | InWidth n =>
          if is_digit c
          then if Nat.ltb n 6 then doPrintf (InWidth (S n)) r else None
          else if Ascii.eqb c "." then doPrintf AfterDot r
          else if Ascii.eqb c "[" then None
          else verb c (doPrintf InText r)
      | AfterDot =>
          if Ascii.eqb c "[" || Ascii.eqb c "*" then None
          else if is_digit c then doPrintf (InPrec 1) r
          else verb c (doPrintf InText r)
      | InPrec n =>
          if is_digit c
          then if Nat.ltb n 6 then doPrintf (InPrec (S n)) r else None
          else if Ascii.eqb c "[" then None
          else verb c (doPrintf InText r)
      end
  end.

Definition Sprintf (format : string) : option string :=
  doPrintf InText format.

(** No percent sign inside. *)
Fixpoint literal (s : string) : bool :=
  match s with
  | EmptyString => true
  | String c r => negb (Ascii.eqb c percent) && literal r
  end.

(** A verb character that is read as a verb right after the percent
    sign. *)
Definition plain_verb (c : ascii) : bool :=
  negb (is_flag c) && negb (is_digit c)
  && negb (Ascii.eqb c "[") && negb (Ascii.eqb c "*")
  && negb (Ascii.eqb c ".") && negb (Ascii.eqb c percent)
  && Nat.ltb (nat_of_ascii c) 128.

End Fmt.

(** [strings.Contains]. *)
Fixpoint contains (s sub : string) : bool :=
  String.prefix sub s
  || match s with
     | EmptyString => false
     | String _ r => contains r sub
     end.

(** What the connection answers to the client's write. *)
Inductive WriteResult :=
| WriteOk
| WriteFails (err : string).

Inductive Sending_ :=
| Sent (bytes : string)     (* the bytes handed to the connection *)
| NotSent                   (* the write failed; the failure is logged *)
| Fatal (code : nat)        (* the process exits *)
| Unmodelled.               (* a format outside [Fmt] *)

(** [SendCommand]: [fmt.Fprintf(c.connection, command+"\n")]; a write
    error whose text contains [broken pipe] ends the process with status
    1 (through [panic] and [recover] in [client.go], through [log.Fatal]
    in the other copy), any other error is logged. *)
Definition SendCommand (command : string) (w : WriteResult) : Sending_ :=
  match w with
  | WriteOk =>
      match Fmt.Sprintf (command ++ nl) with
      | Some bytes => Sent bytes
      | None => Unmodelled
      end
  | WriteFails err =>
      if contains err "broken pipe" then Fatal 1 else NotSent
  end.

(** ** The client process: [main] of [client.go] *)







(** ** The server process, from launch to exit *)

(** A command started in [/] if the directory had been changed, in the
    launch directory if not. *)
Definition started_where (from : string) (st : Main.Started) : Prop :=
  Main.dir st = if Main.after_chdir st then "/" else from.

Definition before_Start (p : Main.Pc) : bool :=
  match p with
  | Main.AtNewServer | Main.AtStart => true
  | _ => false
  end.

(** What holds of the server process all along. *)
Record launched (from : string) (p : Main.Proc) : Prop := mkLaunched {
  l_cwd : Main.cwd p = if Main.chdir_done (Main.pc p) then "/" else from;
  l_dirs : Forall (started_where from) (Main.started p);
  l_quiet : before_Start (Main.pc p) = true ->
            Main.serving p = false /\ Main.started p = [];
  l_code : forall code, Main.pc p = Main.Exited code -> code <= 1
}.

(** * Properties *)

(** ** Strings and connections *)

Lemma append_nil_r (s : string) : (s ++ EmptyString)%string = s.
Proof. induction s as [|a s IH]; simpl; [reflexivity | now rewrite IH]. Qed.

Lemma append_assoc (a b c : string) :
  ((a ++ b) ++ c)%string = (a ++ (b ++ c))%string.
Proof. induction a as [|x a IH]; simpl; [reflexivity | now rewrite IH]. Qed.

Lemma split_at_append (n : nat) (s : string) :
  (fst (split_at n s) ++ snd (split_at n s))%string = s.
Proof.
  revert s; induction n as [|k IH]; intros s.
  - destruct s; reflexivity.
  - destruct s as [|a r]; [reflexivity|].
    simpl. specialize (IH r). destruct (split_at k r) as [h t].
    simpl in *. now rewrite IH.
Qed.

Lemma split_at_length (s : string) :
  split_at (String.length s) s = (s, EmptyString).
Proof.
  induction s as [|a r IH]; [reflexivity|].
  simpl. now rewrite IH.
Qed.

Lemma wire_app (c d : Conn) : wire (c ++ d) = (wire c ++ wire d)%string.
Proof.
  induction c as [|x c IH]; simpl; [reflexivity|].
  now rewrite IH, append_assoc.
Qed.

Lemma wire_snoc (c : Conn) (x : string) :
  wire (c ++ [x]) = (wire c ++ x)%string.
Proof. rewrite wire_app. simpl. now rewrite append_nil_r. Qed.


(** ** The client's reader *)

Lemma one_line_append_inj (l m : string) :
  one_line l = true -> one_line m = true ->
  (l ++ nl)%string = (m ++ nl)%string -> l = m.
Proof.
  revert m; induction l as [|a l IH]; intros [|b m] Hl Hm H; simpl in *.
  - reflexivity.
  - inversion H; subst b. now rewrite Ascii.eqb_refl in Hm.
  - inversion H; subst a. now rewrite Ascii.eqb_refl in Hl.
  - apply andb_prop in Hl as [_ Hl]. apply andb_prop in Hm as [_ Hm].
    inversion H; subst. f_equal. now apply IH.
Qed.

Lemma plain_is_no_marker (l : string) :
  plain l = true ->
  ((l ++ nl)%string =? EOF_LINE) = false
  /\ ((l ++ nl)%string =? TERMINATE_LINE) = false.
Proof.
  unfold plain. intros H.
  apply andb_prop in H as [H Ht]. apply andb_prop in H as [Ho He].
  apply negb_true_iff in He, Ht.
  split; apply String.eqb_neq; intros Heq;
    apply one_line_append_inj in Heq; try assumption; try reflexivity;
    subst l; discriminate.
Qed.

(** The reader takes a whole line and then looks at it. *)
Lemma ReceiveResponse_line (l : string) :
  one_line l = true ->
  forall cur rest ending printed,
    ReceiveResponse_from cur (l ++ nl ++ rest) ending printed
    = let line := (cur ++ l ++ nl)%string in
      if line =? EOF_LINE then (printed, ResponseEnded)
      else if line =? TERMINATE_LINE then (printed, ProcessExit 9)
      else ReceiveResponse_from EmptyString rest ending
                                (printed ++ line)%string.
Proof.
  induction l as [|a l IH]; intros Hl cur rest ending printed.
  - reflexivity.
  - simpl in Hl. apply andb_prop in Hl as [Ha Hl].
    apply negb_true_iff in Ha.
    cbn [append ReceiveResponse_from]. rewrite Ha.
    rewrite (IH Hl). cbn zeta.
    now rewrite append_assoc.
Qed.

Lemma ReceiveResponse_plain_lines (ls : list string) :
  forallb plain ls = true ->
  forall rest ending printed,
    ReceiveResponse_from EmptyString (unlines ls ++ rest) ending printed
    = ReceiveResponse_from EmptyString rest ending
                           (printed ++ unlines ls)%string.
Proof.
  induction ls as [|l ls IH]; intros H rest ending printed.
  - simpl. now rewrite append_nil_r.
  - simpl in H. apply andb_prop in H as [Hl Hls].
    cbn [unlines]. rewrite !append_assoc.
    assert (Ho : one_line l = true).
    { unfold plain in Hl. apply andb_prop in Hl as [Hl _].
      now apply andb_prop in Hl as [Hl _]. }
    rewrite (ReceiveResponse_line l Ho). cbn zeta. cbn [append].
    destruct (plain_is_no_marker l Hl) as [He Ht]. rewrite He, Ht.
    rewrite (IH Hls). now rewrite !append_assoc.
Qed.

Lemma unlines_snoc (ls : list string) (l : string) :
  unlines (ls ++ [l]) = (unlines ls ++ l ++ nl)%string.
Proof.
  induction ls as [|x ls IH]; cbn [unlines app append].
  - now rewrite append_nil_r.
  - now rewrite IH, !append_assoc.
Qed.


(** ** The argument vector of [executeCommand] *)

Lemma limiter_invocation (command : string) :
  Sh.parse (ulimit_argv command)
  = Some (Sh.mkInvocation LIMITER_SCRIPT (Some "--") [command]).
Proof. reflexivity. Qed.

Lemma limiter_runs_one_word (command : string) :
  option_map Sh.program_vector (Sh.parse (ulimit_argv command))
  = Some [command].
Proof.
  rewrite limiter_invocation. cbn [option_map].
  unfold Sh.program_vector; cbn [Sh.command_string Sh.positional].
  now rewrite String.eqb_refl.
Qed.

(** C1.  The command text is not read by a shell as a command line.  The
    vector that is started hands the fixed limiter script to [sh -c] and
    the command text as the single positional parameter, which
    [exec "$@"] runs as one word: the name of a program.  For
    [echo hello] the shell looks for a program called [echo hello], fails
    with status 127, and the client gets an error line; the vector
    [sh -c command], which would read the text as a command line, is built
    by [executeCommand] and never started. *)
Theorem executeCommand_runs_the_text_as_one_word :
  (forall command,
      option_map Sh.program_vector (Sh.parse (ulimit_argv command))
      = Some [command])
  /\ option_map Sh.program_vector (Sh.parse (ulimit_argv "echo hello"))
     = Some ["echo hello"]
  /\ option_map Sh.program_vector (Sh.parse (cmd_argv "echo hello"))
     = Some ["echo"; "hello"]
  /\ executeCommand ServerGo demo_os [] "echo hello"
     = ([], Some "Command exited with status: exit status 127")
  /\ writes (session ServerGo demo_os None
               [mkArrival 0 "echo hello" false] PeerSilent)
     = [("Error executing command:Command exited with status: exit status 127"
         ++ nl)%string;
        EOF_LINE].
Proof.
  split; [exact limiter_runs_one_word|].
  repeat split; reflexivity.
Qed.

(** ** The relay and the end-of-output marker *)

Section RelayInvariant.

Variable v : Variant.
Variable p : Process.
Variable conn : Conn.

Import Relay.

Lemma inv_init : inv p conn (init p conn).
Proof.
  constructor; simpl; intros; try discriminate; auto.
  split; [reflexivity|]. unfold accounted; simpl. reflexivity.
Qed.

Lemma inv_step (l : Label) (s s' : St) :
  inv p conn s -> step v (status p) l s = Some s' -> inv p conn s'.
Proof.
  intros [Hw Ho He Hd] Hs.
  destruct l; simpl in Hs.
  - (* the process prints *)
    destruct (exited s) eqn:Ex; [discriminate|].
    destruct ((n =? 0)%nat || (String.length (to_print s) <? n)%nat)%bool;
      [discriminate|].
    pose proof (split_at_append n (to_print s)) as Hsp.
    destruct (split_at n (to_print s)) as [h t]; simpl in Hsp.
    inversion Hs; subst s'; clear Hs.
    constructor; simpl; intros; try discriminate; auto.
    + destruct (Hw H) as [Hc Ha]. split; [assumption|].
      unfold accounted in *; simpl.
      now rewrite append_assoc, Hsp.
  - (* the process exits *)
    destruct (exited s) eqn:Ex; [discriminate|].
    destruct (to_print s) eqn:Tp; [|discriminate].
    inversion Hs; subst s'; clear Hs.
    constructor; simpl; intros; auto.
    + destruct (Hw H) as [Hc Ha]. split; [assumption|].
      unfold accounted in *; simpl. now rewrite Tp in Ha.
  - (* the copier reads *)
    destruct (copier s) eqn:Cp; try discriminate.
    destruct (rd_closed s) eqn:Rc; [discriminate|].
    destruct ((n =? 0)%nat || (String.length (pipe s) <? n)%nat)%bool;
      [discriminate|].
    pose proof (split_at_append n (pipe s)) as Hsp.
    destruct (split_at n (pipe s)) as [h t]; simpl in Hsp.
    inversion Hs; subst s'; clear Hs.
    constructor; simpl; intros; try discriminate; auto.
    destruct (Hw H) as [Hc Ha]. split; [reflexivity|].
    unfold accounted in *; simpl. rewrite Cp in Ha; simpl in Ha.
    now rewrite <- (append_assoc h t), Hsp.
  - (* the copier writes *)
    destruct (copier s) eqn:Cp; try discriminate.
    inversion Hs; subst s'; clear Hs.
    constructor; simpl; intros; try discriminate; auto.
    destruct (Hw H) as [Hc Ha]. split; [assumption|].
    unfold accounted in *; simpl. rewrite Cp in Ha; simpl in Ha.
    now rewrite wire_snoc, append_assoc.
  - (* the copier's read ends *)
    destruct (copier s) eqn:Cp; try discriminate.
    destruct (rd_closed s) eqn:Rc.
    + inversion Hs; subst s'; clear Hs.
      constructor; simpl; intros; try discriminate; auto.
      destruct (Hw H) as [Hc _]. discriminate.
    + destruct (pipe s) eqn:Pi; [|discriminate].
      destruct (exited s) eqn:Ex; [|discriminate].
      inversion Hs; subst s'; clear Hs.
      pose proof (Ho eq_refl) as Hc.
      destruct (Hw Hc) as [_ Ha].
      unfold accounted in Ha. rewrite Cp, Pi, (He eq_refl) in Ha.
      simpl in Ha. rewrite append_nil_r in Ha.
      constructor; simpl; intros; auto.
      * split; [reflexivity|]. unfold accounted; simpl.
        rewrite (He eq_refl). now rewrite append_nil_r.
      * unfold settled; simpl. now rewrite Hc.
  - (* [Wait] returns *)
    destruct (caller s) eqn:Ca; try discriminate.
    destruct (exited s) eqn:Ex; [|discriminate].
    inversion Hs; subst s'; clear Hs.
    constructor; simpl; intros; try discriminate; auto.
    specialize (Hd H). unfold settled in *; simpl. now rewrite Ca in Hd.
  - (* the caller finishes *)
    destruct (caller s) eqn:Ca; try discriminate.
    destruct (status p) eqn:St;
      inversion Hs; subst s'; clear Hs;
      (constructor; simpl;
       [ intros; discriminate
       | intros H; specialize (Ho H); discriminate
       | assumption
       | intros H; specialize (Hd H); unfold settled in *; simpl;
         rewrite Ca in Hd ]);
      try exact Hd;
      now rewrite wire_snoc, Hd, append_assoc.
Qed.

Lemma reach_inv (s : St) : reach v p conn s -> inv p conn s.
Proof.
  induction 1 as [|s l s' _ IH Hs]; [exact inv_init|].
  exact (inv_step l IH Hs).
Qed.

Lemma run_reach (sched : list Label) (s s' : St) :
  reach v p conn s -> run v (status p) sched s = Some s' ->
  reach v p conn s'.
Proof.
  revert s; induction sched as [|l ls IH]; intros s Hr Hrun; simpl in Hrun.
  - now inversion Hrun; subst.
  - destruct (step v (status p) l s) as [s1|] eqn:Hs; [|discriminate].
    exact (IH s1 (reach_step l Hr Hs) Hrun).
Qed.

End RelayInvariant.

Lemma length_guard (a : ascii) (r : string) :
  let n := String.length (String a r) in
  ((n =? 0)%nat || (n <? n)%nat)%bool = false.
Proof. simpl. now rewrite Nat.ltb_irrefl. Qed.

(** The drained schedule is a run of the two goroutines, and it ends in
    the connection [executeCommand] computes. *)
Lemma drained_run (v : Variant) (p : Process) (conn : Conn) :
  Relay.run v (status p) (Relay.drained (stdout p)) (Relay.init p conn)
  = Some (Relay.mkSt EmptyString true EmptyString true
            (Relay.CopyDone true)
            (Relay.Returned (returned_error v (status p)))
            ((conn ++ relayed (stdout p)) ++ closing_write (status p))).
Proof.
  destruct p as [out st ms]; simpl.
  destruct out as [|a r].
  - destruct st; simpl; now rewrite ?app_nil_r.
  - unfold Relay.drained, Relay.run, Relay.init.
    unfold Relay.step at 1; cbn [Relay.exited Relay.to_print].
    rewrite length_guard, split_at_length.
    unfold Relay.step at 1; cbn [Relay.exited Relay.to_print].
    unfold Relay.step at 1;
      cbn [Relay.copier Relay.rd_closed Relay.pipe append].
    rewrite length_guard, split_at_length.
    destruct st; simpl; now rewrite ?app_nil_r.
Qed.

Lemma executeCommand_running (v : Variant) (os : OS) (conn : Conn)
    (command : string) (p : Process) :
  os (ulimit_argv command) = Running p ->
  executeCommand v os conn command
  = ((conn ++ relayed (stdout p)) ++ closing_write (status p),
     returned_error v (status p)).
Proof.
  intros H. unfold executeCommand. rewrite H.
  destruct (status p); simpl; now rewrite ?app_nil_r.
Qed.

(** The body of the loop when the [select] takes its default case and the
    line is not the exit keyword. *)
Lemma handleConnection_default (v : Variant) (os : OS)
    (stop_at : option N) (a : Arrival) (rest : list Arrival)
    (ending : Ending) (now : N) (conn : Conn) (done : list string) :
  shutdown_raised stop_at (N.max now (at_ms a)) = false ->
  deadline_passed (N.max now (at_ms a)) = false ->
  (text a =? "exit") = false ->
  handleConnection v os stop_at (a :: rest) ending now conn done
  = handleConnection v os stop_at rest ending
      (N.max now (at_ms a) + executeCommand_ms os (text a))
      (match snd (executeCommand v os conn (text a)) with
       | Some e => report_error (fst (executeCommand v os conn (text a))) e
       | None => fst (executeCommand v os conn (text a))
       end)
      (done ++ [text a]).
Proof.
  intros Hs Hd Hx. cbn [handleConnection].
  rewrite Hs, Hd, Hx. cbn [select].
  now destruct (executeCommand v os conn (text a)) as [c e].
Qed.

(** C2, as the code has it.  For a command that exits with status 0,
    the relay can run to completion before the caller goes on, and
    whenever the relay has seen the end of the output the bytes on the
    connection for that invocation are the command's output, then a
    newline byte, then the marker line [EOF]: the write is ["\nEOF\n"].
    [executeCommand] returns no error, so the handler adds no error line
    and scans for the next command. *)
Theorem success_writes_output_newline_marker
    (v : Variant) (p : Process) (conn : Conn) :
  status p = ExitZero ->
  (exists s,
      Relay.run v (status p) (Relay.drained (stdout p)) (Relay.init p conn)
      = Some s
      /\ Relay.caller s = Relay.Returned None
      /\ Relay.copier s = Relay.CopyDone true)
  /\ (forall s,
         Relay.reach v p conn s ->
         Relay.caller s = Relay.Returned None ->
         Relay.copier s = Relay.CopyDone true ->
         wire (Relay.sink s)
         = (wire conn ++ stdout p ++ nl ++ EOF_LINE)%string)
  /\ (forall os stop_at a rest ending now done,
         os (ulimit_argv (text a)) = Running p ->
         shutdown_raised stop_at (N.max now (at_ms a)) = false ->
         deadline_passed (N.max now (at_ms a)) = false ->
         (text a =? "exit") = false ->
         handleConnection v os stop_at (a :: rest) ending now conn done
         = handleConnection v os stop_at rest ending
             (N.max now (at_ms a) + run_ms p)
             (conn ++ relayed (stdout p) ++ [END_OF_OUTPUT])
             (done ++ [text a])).
Proof.
  intros Hz. split; [|split].
  - eexists. split; [apply drained_run|]. rewrite Hz. now split.
  - intros s Hr Hc Hd.
    pose proof (Relay.inv_done (reach_inv Hr) Hd) as Hs.
    unfold Relay.settled in Hs. now rewrite Hc in Hs.
  - intros os stop_at a rest ending now done Hos Hs Hd Hx.
    rewrite handleConnection_default by assumption.
    rewrite (@executeCommand_running v os conn (text a) p Hos), Hz. simpl.
    unfold executeCommand_ms. rewrite Hos.
    now rewrite <- app_assoc.
Qed.

Lemma success_writes_output_newline_marker_witness :
  let p := demo_programs ["hostname"] in
  status p = ExitZero
  /\ forall s,
       Relay.reach ServerGo p [] s ->
       Relay.caller s = Relay.Returned None ->
       Relay.copier s = Relay.CopyDone true ->
       wire (Relay.sink s)
       = (wire [] ++ stdout p ++ nl ++ EOF_LINE)%string.
Proof.
  split; [reflexivity|].
  apply (success_writes_output_newline_marker ServerGo
           (demo_programs ["hostname"]) []).
  reflexivity.
Defined.

(** C2 as stated fails: after the output [hello] and its newline the
    server writes a further newline byte before the marker line. *)
Lemma success_bytes_are_not_output_then_marker :
  let p := demo_programs ["hostname"] in
  demo_os (ulimit_argv "hostname") = Running p
  /\ status p = ExitZero
  /\ stdout p = ("hello" ++ nl)%string
  /\ executeCommand ServerGo demo_os [] "hostname"
     = ([("hello" ++ nl)%string; (nl ++ "EOF" ++ nl)%string], None)
  /\ wire (fst (executeCommand ServerGo demo_os [] "hostname"))
     <> (stdout p ++ EOF_LINE)%string.
Proof.
  repeat split; try reflexivity.
  intros H; vm_compute in H; discriminate H.
Qed.


(** ** The session deadline *)

(** A line that arrives once the deadline has passed, with no shutdown
    raised, is not run: the handler writes the notice and the terminate
    marker and closes the connection. *)
Lemma late_line_is_answered_with_notice (v : Variant) (os : OS)
    (a : Arrival) (rest : list Arrival) (ending : Ending)
    (now : N) (conn : Conn) (done : list string) :
  (TIMEOUT <= at_ms a)%N ->
  handleConnection v os None (a :: rest) ending now conn done
  = mkSession (conn ++ [TIMEOUT_NOTICE; TERMINATE_LINE]) done
              (N.max now (at_ms a)) (Closed ByTimeout).
Proof.
  intros H. cbn [handleConnection shutdown_raised].
  assert (Hd : deadline_passed (N.max now (at_ms a)) = true).
  { unfold deadline_passed. apply N.leb_le. lia. }
  now rewrite Hd.
Qed.

(** C3.  The handler does not race the read against the session timer:
    it looks at the deadline only after [scanner.Scan()] has handed it a
    line.  A client that sends nothing is never told: if it stays
    connected the handler stays in [Scan] with the connection open, and if
    it hangs up after the deadline the handler returns without having
    written a byte. *)
Theorem idle_session_gets_no_timeout_notice
    (v : Variant) (os : OS) (stop_at : option N) :
  session v os stop_at [] PeerSilent = mkSession [] [] 0 BlockedInScan
  /\ forall late,
       session v os stop_at [] (PeerCloses (TIMEOUT + late))
       = mkSession [] [] (TIMEOUT + late) (Closed ByReadEnd).
Proof.
  split; [reflexivity|]. intros late. unfold session. simpl.
  now rewrite N.max_r by lia.
Qed.

(** ** Failed commands *)




(** ** The marker and the relay *)

(** For any command that prints something and exits with status 0 there
    is a run in which the caller has written the marker and returned while
    the whole output still sits in the pipe. *)
Lemma marker_before_any_output (v : Variant) (p : Process) (conn : Conn) :
  stdout p <> EmptyString ->
  status p = ExitZero ->
  exists s,
    Relay.reach v p conn s
    /\ Relay.caller s = Relay.Returned None
    /\ Relay.copier s = Relay.Reading
    /\ Relay.pipe s = stdout p
    /\ Relay.sink s = conn ++ [END_OF_OUTPUT].
Proof.
  intros Hne Hz.
  exists (Relay.mkSt EmptyString true (stdout p) true Relay.Reading
            (Relay.Returned None) (conn ++ [END_OF_OUTPUT])).
  split; [|repeat split].
  apply run_reach with
    (sched := [Relay.ProcPrint (String.length (stdout p)); Relay.ProcExit;
               Relay.WaitReturns; Relay.CallerFinish])
    (s := Relay.init p conn); [constructor|].
  destruct p as [out st ms]; cbn [stdout status] in *. subst st.
  destruct out as [|a r]; [congruence|].
  unfold Relay.run, Relay.init.
  unfold Relay.step at 1; cbn [Relay.exited Relay.to_print].
  rewrite length_guard, split_at_length.
  reflexivity.
Qed.

(** C6.  Nothing makes the caller wait for the relay.  With the output
    [hello] still in the pipe, [Wait] can return and the marker be written
    first: the relay then finds the pipe closed and the output never
    reaches the client; or the relay, holding a chunk it has read, writes
    it after the marker. *)
Theorem marker_can_overtake_output :
  let p := mkProcess ("hello" ++ nl) ExitZero 1 in
  Relay.run ServerGo (status p)
    [Relay.ProcPrint 6; Relay.ProcExit; Relay.WaitReturns;
     Relay.CallerFinish; Relay.CopyEnd]
    (Relay.init p [])
  = Some (Relay.mkSt EmptyString true ("hello" ++ nl) true
            (Relay.CopyDone false) (Relay.Returned None) [END_OF_OUTPUT])
  /\ Relay.run ServerGo (status p)
       [Relay.ProcPrint 6; Relay.ProcExit; Relay.CopyRead 6;
        Relay.WaitReturns; Relay.CallerFinish; Relay.CopyWrite]
       (Relay.init p [])
     = Some (Relay.mkSt EmptyString true EmptyString true
               Relay.Reading (Relay.Returned None)
               [END_OF_OUTPUT; ("hello" ++ nl)%string]).
Proof. split; reflexivity. Qed.

(** ** Shutdown *)









(** ** The shutdown broadcast *)

Lemma apply_shutdown (o : Op) (s s' : Server) :
  apply o s = Done s' ->
  match o with
  | OpStop _ => shutdown s = ChanOpen /\ shutdown s' = ChanClosed
  | _ => shutdown s' = shutdown s
  end.
Proof.
  intros Ha. destruct o; simpl in Ha.
  - inversion Ha; subst; reflexivity.
  - inversion Ha; subst. unfold accept_step.
    destruct (accept_loop s); try destruct (is_closed (shutdown s));
      try destruct (listener_open s); try destruct incoming; reflexivity.
  - inversion Ha; subst. unfold dispatch_step.
    destruct (dispatch_loop s); [|reflexivity].
    destruct (accept_loop s);
      try destruct (is_closed (shutdown s)); simpl;
      try destruct pick_shutdown; reflexivity.
  - inversion Ha; subst; reflexivity.
  - unfold Stop in Ha. destruct (shutdown s); simpl in Ha; [|discriminate].
    inversion Ha; subst. split; reflexivity.
Qed.

Lemma stops_account (ops : list Op) (s s' : Server) :
  apply_all ops s = Done s' ->
  match shutdown s with
  | ChanOpen =>
      stops ops <= 1 /\ (shutdown s' = ChanClosed <-> stops ops = 1)
  | ChanClosed => stops ops = 0 /\ shutdown s' = ChanClosed
  end.
Proof.
  revert s; induction ops as [|o ops IH]; intros s Ha; simpl in Ha.
  - inversion Ha; subst. destruct (shutdown s'); simpl.
    + split; [lia|]. split; intros; discriminate.
    + split; reflexivity.
  - destruct (apply o s) as [s1|m] eqn:Ho; [|discriminate].
    specialize (IH s1 Ha). pose proof (apply_shutdown o s Ho) as Hs.
    destruct o; simpl; try (rewrite Hs in IH; exact IH).
    destruct Hs as [Hopen Hclosed]. rewrite Hopen, Hclosed in *.
    destruct IH as [Hz Hc]. rewrite Hz. split; [lia|]. now split.
Qed.

(** C8, as the code has it.  [Stop] closes the shutdown channel with a
    bare [close]: the first call succeeds and raises the signal, any
    further call panics.  Raised, the signal stays raised whatever the
    server does next, and a server that has not panicked has had [Stop]
    called at most once. *)
Theorem shutdown_is_closed_once_without_guard :
  (forall d s, shutdown s = ChanOpen ->
     exists s' t, Stop d s = Done (s', t) /\ shutdown s' = ChanClosed)
  /\ (forall d s, shutdown s = ChanClosed ->
        Stop d s = Panicked "close of closed channel")
  /\ (forall ops s s', shutdown s = ChanClosed ->
        apply_all ops s = Done s' -> shutdown s' = ChanClosed)
  /\ (forall ops s', apply_all ops NewServer = Done s' ->
        stops ops <= 1 /\ (shutdown s' = ChanClosed <-> stops ops = 1)).
Proof.
  split; [|split; [|split]].
  - intros d s H. unfold Stop. rewrite H. simpl.
    eexists; eexists. split; reflexivity.
  - intros d s H. unfold Stop. rewrite H. reflexivity.
  - intros ops s s' H Ha.
    pose proof (stops_account ops s Ha) as Hs. rewrite H in Hs. apply Hs.
  - intros ops s' Ha. exact (stops_account ops NewServer Ha).
Qed.

(** C8 as stated fails: the second call of [Stop] faults. *)
Lemma second_Stop_panics :
  apply_all [OpStart; OpStop None] NewServer
  = Done (mkServer ChanClosed false 2 AtSelect Dispatching [])
  /\ Stop None (mkServer ChanClosed false 2 AtSelect Dispatching [])
     = Panicked "close of closed channel"
  /\ apply_all [OpStart; OpStop None; OpStop None] NewServer
     = Panicked "close of closed channel".
Proof. repeat split; reflexivity. Qed.

(** ** The client's trust in the server *)

Lemma client_config_shape (d : TLS.Disk) (cfg : TLS.Config) :
  TLS.client_LoadCertificates d = Some cfg ->
  TLS.InsecureSkipVerify cfg = true.
Proof.
  unfold TLS.client_LoadCertificates. intros H.
  destruct (TLS.LoadX509KeyPair _ _ _); [|discriminate].
  destruct (TLS.read_file d TLS.CA_FILE); [|discriminate].
  now inversion H.
Qed.

Lemma server_config_shape (d : TLS.Disk) (cfg : TLS.Config) :
  TLS.server_LoadCertificates d = Some cfg ->
  TLS.ClientAuth cfg = TLS.RequireAndVerifyClientCert.
Proof.
  unfold TLS.server_LoadCertificates. intros H.
  destruct (TLS.LoadX509KeyPair _ _ _); [|discriminate].
  destruct (TLS.read_file d TLS.CA_FILE); [|discriminate].
  now inversion H.
Qed.

(** C4.  Every configuration the client's [LoadCertificates] returns has
    [InsecureSkipVerify: true]: the client loads the authority into
    [RootCAs] and then skips verification, so it accepts whatever
    certificate the server presents, signed by that authority or not.  The
    server's loader does what the client's misses: it requires a client
    certificate and checks it against the authority. *)
Theorem client_accepts_any_server_certificate :
  (forall d cfg,
      TLS.client_LoadCertificates d = Some cfg ->
      TLS.client_verifies cfg = false
      /\ forall c, TLS.client_accepts cfg c = true)
  /\ (forall d cfg,
         TLS.server_LoadCertificates d = Some cfg ->
         TLS.server_accepts cfg None = false
         /\ forall c,
              TLS.server_accepts cfg (Some c)
              = TLS.signed_by (TLS.ClientCAs cfg) c)
  /\ (exists cfg,
         TLS.client_LoadCertificates TLS.demo_disk = Some cfg
         /\ TLS.RootCAs cfg = ["remote-shell-ca"]
         /\ TLS.signed_by (TLS.RootCAs cfg)
              (TLS.mkCertificate "localhost" "someone-else") = false
         /\ TLS.client_accepts cfg
              (TLS.mkCertificate "localhost" "someone-else") = true).
Proof.
  split; [|split].
  - intros d cfg H. pose proof (client_config_shape d H) as Hi.
    unfold TLS.client_verifies, TLS.client_accepts. rewrite Hi.
    split; [reflexivity | intros c; reflexivity].
  - intros d cfg H. pose proof (server_config_shape d H) as Hs.
    unfold TLS.server_accepts. rewrite Hs.
    split; [reflexivity | intros c; reflexivity].
  - eexists. repeat split; reflexivity.
Qed.

(** ** The markers on the client's side *)

(** C9.  The reader compares each line with the two markers and nothing
    else: after any run of ordinary lines, which it prints, a line [EOF]
    ends the call and a line [TERMINATE] exits the process with status 9,
    whatever follows on the connection; what follows is not printed. *)
Theorem ReceiveResponse_stops_at_marker_line
    (ls : list string) (rest : string) (ending : ReadEnd) :
  forallb plain ls = true ->
  ReceiveResponse (unlines ls ++ EOF_LINE ++ rest) ending
  = (unlines ls, ResponseEnded)
  /\ ReceiveResponse (unlines ls ++ TERMINATE_LINE ++ rest) ending
     = (unlines ls, ProcessExit 9).
Proof.
  intros H. unfold ReceiveResponse.
  rewrite !(ReceiveResponse_plain_lines ls H).
  unfold EOF_LINE, TERMINATE_LINE. rewrite !append_assoc.
  rewrite !ReceiveResponse_line by reflexivity.
  split; reflexivity.
Qed.

Lemma ReceiveResponse_stops_at_marker_line_witness :
  forallb plain ["hello"; "EOF?"] = true
  /\ ReceiveResponse
       (unlines ["hello"; "EOF?"] ++ EOF_LINE ++ unlines ["more"]) ReadPending
     = (unlines ["hello"; "EOF?"], ResponseEnded)
  /\ ReceiveResponse
       (unlines ["hello"; "EOF?"] ++ TERMINATE_LINE ++ unlines ["more"])
       ReadPending
     = (unlines ["hello"; "EOF?"], ProcessExit 9).
Proof.
  split; [reflexivity|].
  apply (ReceiveResponse_stops_at_marker_line
           ["hello"; "EOF?"] (unlines ["more"]) ReadPending).
  reflexivity.
Defined.

(** ** The working directory *)

Lemma main_inv_step (e : Main.Event) (p : Main.Proc) :
  Main.main_inv p -> Main.main_inv (Main.step e p).
Proof.
  intros [Hc Hs]. destruct e as [ok|c]; unfold Main.step.
  - destruct (Main.pc p) eqn:Pc; try destruct ok;
      (split; simpl; [|exact Hs]); rewrite ?Pc;
      try discriminate; try reflexivity; try exact Hc;
      intros _; apply Hc; reflexivity.
  - destruct (Main.serving p && Main.alive (Main.pc p)); [|now split].
    split; simpl; [exact Hc|].
    apply Forall_app. split; [exact Hs|].
    constructor; [|constructor]. unfold Main.root_after_chdir; simpl.
    exact Hc.
Qed.

Lemma main_inv_run (es : list Main.Event) (p : Main.Proc) :
  Main.main_inv p -> Main.main_inv (Main.run es p).
Proof.
  revert p; induction es as [|e es IH]; intros p H; [exact H|].
  simpl. apply IH. now apply main_inv_step.
Qed.

Lemma exited_is_final (es : list Main.Event) (p : Main.Proc) (code : nat) :
  Main.pc p = Main.Exited code -> Main.run es p = p.
Proof.
  revert p; induction es as [|e es IH]; intros p H; [reflexivity|].
  simpl. assert (Hp : Main.step e p = p).
  { destruct e; unfold Main.step; rewrite H; simpl;
      [reflexivity | now rewrite andb_false_r]. }
  rewrite Hp. now apply IH.
Qed.

(** C10, as the code has it.  [main] starts the loops and then changes
    to [/]; a failure there ends the process with status 1 and nothing
    runs afterwards.  From the moment [os.Chdir] has returned the server
    is in [/] and stays there, and every command started from then on
    starts in [/]. *)
Theorem commands_after_chdir_start_in_root
    (from : string) (es : list Main.Event) :
  let p := Main.run es (Main.launch from) in
  (Main.chdir_done (Main.pc p) = true -> Main.cwd p = "/")
  /\ Forall Main.root_after_chdir (Main.started p)
  /\ (forall q es',
         Main.pc q = Main.AtChdir ->
         Main.run es' (Main.step (Main.MainStep false) q)
         = Main.mkProc (Main.Exited 1) (Main.cwd q) false (Main.started q)).
Proof.
  assert (Hi : Main.main_inv (Main.launch from)).
  { split; simpl; [discriminate | constructor]. }
  destruct (main_inv_run es Hi) as [Hc Hs].
  split; [exact Hc|]. split; [exact Hs|].
  intros q es' Hq. unfold Main.step at 1. rewrite Hq.
  now apply exited_is_final with (code := 1).
Qed.

(** C10 as stated fails: the loops run before the directory changes, and
    a command a session starts in between starts in the directory the
    server was launched from. *)
Lemma command_before_chdir_starts_in_launch_directory :
  Main.run [Main.MainStep true; Main.MainStep true;
            Main.SessionRuns "pwd"; Main.MainStep true;
            Main.SessionRuns "pwd"]
           (Main.launch "/srv/remote-shell")
  = Main.mkProc Main.AtSignalWait "/" true
      [Main.mkStarted "pwd" "/srv/remote-shell" false;
       Main.mkStarted "pwd" "/" true]
  /\ ~ Forall (fun st => Main.dir st = "/")
         (Main.started
            (Main.run [Main.MainStep true; Main.MainStep true;
                       Main.SessionRuns "pwd"; Main.MainStep true;
                       Main.SessionRuns "pwd"]
                      (Main.launch "/srv/remote-shell"))).
Proof.
  split; [reflexivity|].
  intros H. simpl in H. inversion H as [|x l Hx _]. discriminate Hx.
Qed.

(** * Further properties of the code *)

(** ** The session, line after line *)










(** X5.  Once the deadline has passed or the shutdown has been raised when a
    line is scanned, be it by idle time or by the running time of earlier
    commands, neither that line nor any later one is run: the handler
    closes, silently on shutdown, with the notice and the terminate marker
    on timeout.  It takes the shutdown exit only if the shutdown was
    raised and the timeout exit only if the deadline had passed. *)
Theorem no_command_after_deadline_or_shutdown (v : Variant) (os : OS)
    (stop_at : option N) (a : Arrival) (rest : list Arrival)
    (ending : Ending) (now : N) (conn : Conn) (done : list string) :
  deadline_passed (N.max now (at_ms a)) = true
  \/ shutdown_raised stop_at (N.max now (at_ms a)) = true ->
  let s := handleConnection v os stop_at (a :: rest) ending now conn done in
  ran s = done
  /\ writes s = conn ++ farewell (outcome s)
  /\ ((outcome s = Closed ByTimeout
       /\ deadline_passed (N.max now (at_ms a)) = true)
      \/ (outcome s = Closed ByShutdown
          /\ shutdown_raised stop_at (N.max now (at_ms a)) = true)).
Proof.
  intros H. cbn zeta. cbn [handleConnection].
  destruct (shutdown_raised stop_at (N.max now (at_ms a))) eqn:Hs;
    destruct (deadline_passed (N.max now (at_ms a))) eqn:Hd;
    cbn [select].
  - destruct (coin a); simpl; rewrite ?app_nil_r; auto.
  - simpl. rewrite app_nil_r. auto.
  - simpl. auto.
  - destruct H; discriminate.
Qed.

Lemma no_command_after_deadline_or_shutdown_witness :
  let slow : OS := fun _ => Running (mkProcess EmptyString ExitZero 99000) in
  let second := mkArrival 3000 "more" false in
  let s := handleConnection ServerGo slow None [second] PeerSilent
             (2000 + 99000) [END_OF_OUTPUT] ["work"] in
  (deadline_passed (N.max (2000 + 99000) (at_ms second)) = true
   \/ shutdown_raised None (N.max (2000 + 99000) (at_ms second)) = true)
  /\ session ServerGo slow None [mkArrival 2000 "work" false; second]
       PeerSilent = s
  /\ ran s = ["work"]
  /\ writes s = [END_OF_OUTPUT] ++ farewell (outcome s)
  /\ ((outcome s = Closed ByTimeout
       /\ deadline_passed (N.max (2000 + 99000) (at_ms second)) = true)
      \/ (outcome s = Closed ByShutdown
          /\ shutdown_raised None (N.max (2000 + 99000) (at_ms second))
             = true)).
Proof.
  split; [left; reflexivity|]. split; [reflexivity|].
  apply (@no_command_after_deadline_or_shutdown ServerGo
           (fun _ => Running (mkProcess EmptyString ExitZero 99000))
           None (mkArrival 3000 "more" false) [] PeerSilent
           (2000 + 99000) [END_OF_OUTPUT] ["work"]).
  left; reflexivity.
Defined.



(** ** The relay under every schedule *)

Ltac string_norm :=
  cbn [append Relay.held marker_of];
  rewrite ?append_assoc, ?append_nil_r;
  cbn [append].

Lemma in_order_init (p : Process) (conn : Conn) :
  in_order p conn (Relay.init p conn).
Proof.
  exists EmptyString, EmptyString. simpl.
  rewrite append_nil_r. repeat split; auto.
Qed.

Lemma in_order_step (v : Variant) (p : Process) (conn : Conn)
    (l : Relay.Label) (s s' : Relay.St) :
  in_order p conn s -> Relay.step v (status p) l s = Some s' ->
  in_order p conn s'.
Proof.
  intros (a & b & Hw & Hacc & Hb) Hs.
  destruct l; cbn [Relay.step] in Hs.
  - (* the process prints *)
    destruct (Relay.exited s); [discriminate|].
    destruct ((n =? 0)%nat
              || (String.length (Relay.to_print s) <? n)%nat)%bool;
      [discriminate|].
    pose proof (split_at_append n (Relay.to_print s)) as Hsp.
    destruct (split_at n (Relay.to_print s)) as [h t]; simpl in Hsp.
    inversion Hs; subst s'; clear Hs. exists a, b.
    cbn [Relay.sink Relay.caller Relay.copier Relay.pipe Relay.to_print].
    repeat split; auto.
    rewrite <- Hacc, <- Hsp. now rewrite !append_assoc.
  - (* the process exits *)
    destruct (Relay.exited s); [discriminate|].
    destruct (Relay.to_print s) eqn:Tp; [|discriminate].
    inversion Hs; subst s'; clear Hs. exists a, b.
    cbn [Relay.sink Relay.caller Relay.copier Relay.pipe Relay.to_print].
    repeat split; auto.
  - (* the copier reads *)
    destruct (Relay.copier s) eqn:Cp; try discriminate.
    destruct (Relay.rd_closed s); [discriminate|].
    destruct ((n =? 0)%nat
              || (String.length (Relay.pipe s) <? n)%nat)%bool;
      [discriminate|].
    pose proof (split_at_append n (Relay.pipe s)) as Hsp.
    destruct (split_at n (Relay.pipe s)) as [h t]; simpl in Hsp.
    inversion Hs; subst s'; clear Hs. exists a, b.
    cbn [Relay.sink Relay.caller Relay.copier Relay.pipe Relay.to_print
         Relay.held].
    repeat split; auto.
    rewrite <- Hacc, <- Hsp. cbn [Relay.held append].
    now rewrite !append_assoc.
  - (* the copier writes *)
    destruct (Relay.copier s) eqn:Cp; try discriminate.
    inversion Hs; subst s'; clear Hs.
    cbn [Relay.held] in Hacc.
    destruct (Relay.caller s) as [| |[e|]] eqn:Ca;
      try (destruct Hb as [Hb|Hb]; [discriminate Hb|]; subst b;
           exists (a ++ chunk)%string, EmptyString;
           cbn [Relay.sink Relay.caller Relay.copier Relay.pipe
                Relay.to_print Relay.held marker_of];
           rewrite ?Ca; cbn [marker_of];
           repeat split; auto;
           [ rewrite wire_snoc, Hw; cbn [marker_of append];
             now rewrite ?append_assoc, ?append_nil_r
           | rewrite <- Hacc; cbn [append];
             now rewrite ?append_assoc ]).
    exists a, (b ++ chunk)%string.
    cbn [Relay.sink Relay.caller Relay.copier Relay.pipe
         Relay.to_print Relay.held].
    rewrite ?Ca. repeat split; auto.
    + rewrite wire_snoc, Hw. now rewrite ?append_assoc.
    + rewrite <- Hacc. cbn [append]. now rewrite ?append_assoc.
  - (* the copier's read ends *)
    destruct (Relay.copier s) eqn:Cp; try discriminate.
    cbn [Relay.held] in Hacc.
    destruct (Relay.rd_closed s).
    + inversion Hs; subst s'; clear Hs. exists a, b.
      cbn [Relay.sink Relay.caller Relay.copier Relay.pipe
           Relay.to_print Relay.held].
      repeat split; auto.
    + destruct (Relay.pipe s) eqn:Pi; [|discriminate].
      destruct (Relay.exited s); [|discriminate].
      inversion Hs; subst s'; clear Hs. exists a, b.
      cbn [Relay.sink Relay.caller Relay.copier Relay.pipe
           Relay.to_print Relay.held].
      repeat split; auto.
  - (* [Wait] returns *)
    destruct (Relay.caller s) eqn:Ca; try discriminate.
    destruct (Relay.exited s); [|discriminate].
    inversion Hs; subst s'; clear Hs.
    destruct Hb as [Hb|Hb]; [discriminate Hb|]. exists a, b.
    cbn [Relay.sink Relay.caller Relay.copier Relay.pipe
         Relay.to_print Relay.held marker_of] in *.
    repeat split; auto.
  - (* the caller finishes *)
    destruct (Relay.caller s) eqn:Ca; try discriminate.
    destruct Hb as [Hb|Hb]; [discriminate Hb|]. subst b.
    cbn [marker_of] in Hw.
    destruct (status p); inversion Hs; subst s'; clear Hs;
      exists a, EmptyString;
      cbn [Relay.sink Relay.caller Relay.copier Relay.pipe
           Relay.to_print Relay.held marker_of];
      repeat split; auto;
      rewrite wire_snoc, Hw; cbn [append];
      now rewrite ?append_assoc, ?append_nil_r.
Qed.

(** X7.  Under every schedule the connection carries the command's output in
    the order it was printed, nothing repeated and nothing made up, with
    the end-of-output marker put in at most once; output may be missing
    at the end, or follow the marker. *)
Theorem relay_keeps_output_in_order (v : Variant) (p : Process)
    (conn : Conn) (s : Relay.St) :
  Relay.reach v p conn s ->
  exists before after missing,
    wire (Relay.sink s)
    = (wire conn ++ before ++ marker_of (Relay.caller s) ++ after)%string
    /\ (before ++ after ++ missing)%string = stdout p
    /\ (Relay.caller s = Relay.Returned None \/ after = EmptyString).
Proof.
  intros Hr.
  assert (Hi : in_order p conn s).
  { induction Hr as [|s l s' _ IH Hs]; [apply in_order_init|].
    exact (@in_order_step v p conn l s s' IH Hs). }
  destruct Hi as (a & b & Hw & Hacc & Hb).
  exists a, b,
    (Relay.held (Relay.copier s) ++ Relay.pipe s ++ Relay.to_print s)%string.
  repeat split; assumption.
Qed.

Lemma relay_keeps_output_in_order_witness :
  let p := mkProcess ("hello" ++ nl) ExitZero 1 in
  let s := Relay.mkSt EmptyString true EmptyString true Relay.Reading
             (Relay.Returned None) [END_OF_OUTPUT; ("hello" ++ nl)%string] in
  Relay.reach ServerGo p [] s
  /\ exists before after missing,
       wire (Relay.sink s)
       = (wire [] ++ before ++ marker_of (Relay.caller s) ++ after)%string
       /\ (before ++ after ++ missing)%string = stdout p
       /\ (Relay.caller s = Relay.Returned None \/ after = EmptyString).
Proof.
  assert (Hr : Relay.reach ServerGo (mkProcess ("hello" ++ nl) ExitZero 1) []
                 (Relay.mkSt EmptyString true EmptyString true Relay.Reading
                    (Relay.Returned None)
                    [END_OF_OUTPUT; ("hello" ++ nl)%string])).
  { apply run_reach with
      (sched := [Relay.ProcPrint 6; Relay.ProcExit; Relay.CopyRead 6;
                 Relay.WaitReturns; Relay.CallerFinish; Relay.CopyWrite])
      (s := Relay.init (mkProcess ("hello" ++ nl) ExitZero 1) []);
      [constructor | reflexivity]. }
  split; [exact Hr|].
  exact (relay_keeps_output_in_order Hr).
Defined.






(** The run [executeCommand] stands for is one of the runs of the two
    goroutines: the drained schedule can be taken for every process, it
    ends with the relay having seen the end of the output, and its
    connection and error are the function's result. *)
Theorem executeCommand_is_the_drained_run (v : Variant) (os : OS)
    (conn : Conn) (command : string) (p : Process) :
  os (ulimit_argv command) = Running p ->
  exists s,
    Relay.run v (status p) (Relay.drained (stdout p)) (Relay.init p conn)
    = Some s
    /\ Relay.reach v p conn s
    /\ Relay.copier s = Relay.CopyDone true
    /\ exists e, Relay.caller s = Relay.Returned e
                 /\ executeCommand v os conn command = (Relay.sink s, e).
Proof.
  intros Hos. eexists. split; [apply drained_run|].
  split; [|split; [reflexivity|]].
  - eapply run_reach; [constructor | apply drained_run].
  - eexists. split; [reflexivity|].
    now rewrite (@executeCommand_running v os conn command p Hos).
Qed.

Lemma executeCommand_is_the_drained_run_witness :
  let p := demo_programs ["hostname"] in
  demo_os (ulimit_argv "hostname") = Running p
  /\ exists s,
       Relay.run Part000 (status p) (Relay.drained (stdout p))
                 (Relay.init p ["earlier"])
       = Some s
       /\ Relay.reach Part000 p ["earlier"] s
       /\ Relay.copier s = Relay.CopyDone true
       /\ exists e, Relay.caller s = Relay.Returned e
                    /\ executeCommand Part000 demo_os ["earlier"] "hostname"
                       = (Relay.sink s, e).
Proof.
  split; [reflexivity|].
  apply (@executeCommand_is_the_drained_run Part000 demo_os ["earlier"]
           "hostname" (demo_programs ["hostname"])).
  reflexivity.
Defined.

(** ** The loops, the counter and the hand-off *)

Lemma apply_keeps_count (o : Op) (s s' : Server) :
  is_start o = false -> apply o s = Done s' ->
  wg s = running_loops s -> wg s' = running_loops s'.
Proof.
  intros Hn Ha Hw. unfold running_loops in *.
  destruct o; try discriminate Hn; simpl in Ha.
  - inversion Ha; subst s'; clear Ha. unfold accept_step.
    destruct (accept_loop s) eqn:A; try exact Hw.
    + destruct (is_closed (shutdown s)); simpl; [lia | exact Hw].
    + destruct (listener_open s); [destruct incoming|]; simpl;
        rewrite ?A; simpl; try exact Hw.
    + rewrite A. exact Hw.
    + rewrite A. exact Hw.
  - inversion Ha; subst s'; clear Ha. unfold dispatch_step.
    destruct (dispatch_loop s) eqn:D; [|rewrite D; exact Hw].
    destruct (accept_loop s) eqn:A;
      try (destruct (is_closed (shutdown s)); simpl;
           rewrite ?A, ?D; simpl; lia).
    destruct (is_closed (shutdown s) && pick_shutdown); simpl;
      rewrite ?A; simpl; lia.
  - inversion Ha; subst s'; clear Ha. exact Hw.
  - unfold Stop in Ha. destruct (close (shutdown s)); [|discriminate].
    inversion Ha; subst s'; clear Ha. exact Hw.
Qed.

(** X9.  A server started once keeps its counter equal to the number of its
    two loops that have not returned, whatever is accepted, dispatched,
    handled or stopped: [Done] is never called on a counter at zero, and
    [Wait] in [Stop] can return exactly when both loops have returned.
    The handlers are not counted. *)
Theorem counter_counts_the_two_loops (ops : list Op) (s' : Server) :
  after_start ops = true ->
  apply_all ops (Start NewServer) = Done s' ->
  wg s' = running_loops s' /\ wg s' <= 2.
Proof.
  intros Hn Ha.
  assert (H : forall s, wg s = running_loops s ->
                        apply_all ops s = Done s' ->
                        wg s' = running_loops s').
  { clear Ha. induction ops as [|o ops IH]; intros s Hw Ha; simpl in Ha.
    - now inversion Ha; subst.
    - simpl in Hn. apply andb_prop in Hn as [Ho Hn].
      apply negb_true_iff in Ho.
      destruct (apply o s) as [s1|m] eqn:Hs; [|discriminate].
      exact (IH Hn s1 (apply_keeps_count o s Ho Hs Hw) Ha). }
  specialize (H (Start NewServer) eq_refl Ha).
  split; [exact H|]. rewrite H. unfold running_loops.
  destruct (accept_loop s'), (dispatch_loop s'); simpl; lia.
Qed.

Lemma counter_counts_the_two_loops_witness :
  let ops := [OpAccept None; OpAccept (Some 4); OpDispatch false;
              OpLine 4 20; OpStop (Some 2%N); OpDispatch true] in
  let s' := mkServer ChanClosed false 1 AtSelect DispatchExited
              [mkHandler 4 true (EXECUTING 18)] in
  (after_start ops = true /\ apply_all ops (Start NewServer) = Done s')
  /\ wg s' = running_loops s' /\ wg s' <= 2.
Proof.
  split; [split; reflexivity|].
  apply (@counter_counts_the_two_loops
           [OpAccept None; OpAccept (Some 4); OpDispatch false;
            OpLine 4 20; OpStop (Some 2%N); OpDispatch true]);
    reflexivity.
Defined.

Lemma stranded_step (o : Op) (c : nat) (s s' : Server) :
  is_start o = false -> apply o s = Done s' ->
  accept_loop s = Sending c -> dispatch_loop s = DispatchExited ->
  accept_loop s' = Sending c /\ dispatch_loop s' = DispatchExited
  /\ wg s' = wg s /\ map peer (handlers s') = map peer (handlers s).
Proof.
  intros Hn Ha HA HD.
  destruct o; try discriminate Hn; simpl in Ha.
  - inversion Ha; subst s'; clear Ha. unfold accept_step. rewrite HA.
    now rewrite HA, HD.
  - inversion Ha; subst s'; clear Ha. unfold dispatch_step. rewrite HD.
    now rewrite HA, HD.
  - inversion Ha; subst s'; clear Ha. simpl.
    repeat split; auto. rewrite map_map. apply map_ext.
    intros h. unfold handler_line.
    destruct (phase h); [|reflexivity].
    destruct (Nat.eqb (peer h) c0 && sock_open h); [|reflexivity].
    now destruct (is_closed (shutdown s)).
  - unfold Stop in Ha. destruct (close (shutdown s)); [|discriminate].
    inversion Ha; subst s'; clear Ha. simpl.
    repeat split; auto. rewrite map_map. apply map_ext.
    intros h. unfold elapse. destruct (phase h) as [|m]; [reflexivity|].
    now destruct (N.leb m (stop_wait drained)).
Qed.

(** X10.  A connection accepted while the dispatch loop has already left on
    shutdown is stranded: the accept loop stays in its send on the
    hand-off channel for good, so it never returns and the counter never
    reaches zero, and the connection never gets a handler. *)
Theorem connection_handed_off_after_dispatch_left_is_stranded
    (ops : list Op) (c : nat) (s s' : Server) :
  accept_loop s = Sending c ->
  dispatch_loop s = DispatchExited ->
  after_start ops = true ->
  apply_all ops s = Done s' ->
  accept_loop s' = Sending c
  /\ wg s' = wg s
  /\ map peer (handlers s') = map peer (handlers s).
Proof.
  revert s; induction ops as [|o ops IH]; intros s HA HD Hn Ha;
    simpl in Ha.
  - inversion Ha; subst. auto.
  - simpl in Hn. apply andb_prop in Hn as [Ho Hn].
    apply negb_true_iff in Ho.
    destruct (apply o s) as [s1|m] eqn:Hs; [|discriminate].
    destruct (stranded_step o s Ho Hs HA HD) as (HA1 & HD1 & Hw1 & Hp1).
    destruct (IH s1 HA1 HD1 Hn Ha) as (HA' & Hw' & Hp').
    repeat split; congruence.
Qed.

Lemma connection_handed_off_after_dispatch_left_is_stranded_witness :
  let s := mkServer ChanClosed false 1 (Sending 7) DispatchExited [] in
  let ops := [OpAccept (Some 8); OpDispatch false; OpLine 7 10] in
  apply_all [OpStart; OpAccept None; OpAccept (Some 7); OpStop None;
             OpDispatch true] NewServer = Done s
  /\ (accept_loop s = Sending 7 /\ dispatch_loop s = DispatchExited
      /\ after_start ops = true /\ apply_all ops s = Done s)
  /\ accept_loop s = Sending 7
  /\ wg s = wg s
  /\ map peer (handlers s) = map peer (handlers s).
Proof.
  split; [reflexivity|]. split; [repeat split; reflexivity|].
  apply (@connection_handed_off_after_dispatch_left_is_stranded
           [OpAccept (Some 8); OpDispatch false; OpLine 7 10] 7
           (mkServer ChanClosed false 1 (Sending 7) DispatchExited [])
           (mkServer ChanClosed false 1 (Sending 7) DispatchExited []));
    reflexivity.
Defined.

(** X11.  With the shutdown raised, the listener closed and no connection in
    the hand-off, the two loops return at their next look at the shutdown
    channel: two moves of the accept loop and one of the dispatch loop
    bring the counter to zero, and no handler is added. *)
Theorem loops_drain_after_Stop (i j : option nat) (b : bool)
    (s : Server) :
  shutdown s = ChanClosed ->
  listener_open s = false ->
  accept_loop s = AtSelect \/ accept_loop s = InAccept ->
  dispatch_loop s = Dispatching ->
  wg s = 2 ->
  apply_all [OpAccept i; OpAccept j; OpDispatch b] s
  = Done (mkServer ChanClosed false 0 AcceptExited DispatchExited
                   (handlers s)).
Proof.
  intros Hs Hl Ha Hd Hw. destruct s as [sh lo w al dl hs].
  simpl in *. subst sh lo dl w.
  destruct Ha as [Ha|Ha]; subst al; reflexivity.
Qed.

Lemma loops_drain_after_Stop_witness :
  let s := mkServer ChanClosed false 2 InAccept Dispatching
             [mkHandler 1 true READING] in
  apply_all [OpStart; OpAccept None; OpAccept (Some 1); OpDispatch false;
             OpAccept None; OpStop None] NewServer = Done s
  /\ apply_all [OpAccept None; OpAccept (Some 9); OpDispatch true] s
     = Done (mkServer ChanClosed false 0 AcceptExited DispatchExited
                      (handlers s)).
Proof.
  split; [reflexivity|].
  apply (@loops_drain_after_Stop None (Some 9) true
           (mkServer ChanClosed false 2 InAccept Dispatching
                     [mkHandler 1 true READING]));
    try reflexivity.
  right; reflexivity.
Defined.

(** ** Loading the certificates *)




(** ** The server process from launch to exit *)

(** ** The server process from launch to exit *)

Lemma launched_step (from : string) (e : Main.Event) (p : Main.Proc) :
  launched from p -> launched from (Main.step e p).
Proof.
  intros [Hc Hd Hq Hx]. destruct e as [ok|c]; unfold Main.step.
  - destruct (Main.pc p) eqn:Pc; try destruct ok;
      constructor; cbn [Main.pc Main.cwd Main.serving Main.started
                        Main.chdir_done before_Start] in *;
      rewrite ?Pc; auto; try discriminate;
      try (intros code' H; inversion H; lia);
      try (intros _; exact (Hq eq_refl));
      try (intros code' H; apply Hx; exact H).
  - destruct (Main.serving p && Main.alive (Main.pc p)) eqn:Hs;
      [|now constructor].
    apply andb_prop in Hs as [Hs _].
    constructor; cbn [Main.pc Main.cwd Main.serving Main.started]; auto.
    + apply Forall_app. split; [exact Hd|].
      constructor; [|constructor]. unfold started_where; simpl.
      exact Hc.
    + intros Hb. destruct (Hq Hb) as [Hf _]. congruence.
Qed.

(** X14.  The server process ends with status 0 or 1; no command is started
    before [Start]; and a command starts in the launch directory if the
    directory had not been changed when it started, in [/] if it had. *)
Theorem server_process_directories_and_exit (from : string)
    (es : list Main.Event) :
  let p := Main.run es (Main.launch from) in
  Forall (started_where from) (Main.started p)
  /\ (before_Start (Main.pc p) = true -> Main.started p = [])
  /\ (forall code, Main.pc p = Main.Exited code -> code = 0 \/ code = 1).
Proof.
  cbn zeta.
  assert (H : forall p, launched from p -> launched from (Main.run es p)).
  { induction es as [|e es IH]; intros p Hp; [exact Hp|].
    simpl. apply IH. now apply launched_step. }
  assert (H0 : launched from (Main.launch from)).
  { constructor; simpl; auto; discriminate. }
  destruct (H _ H0) as [Hc Hd Hq Hx].
  split; [exact Hd|]. split.
  - intros Hb. now destruct (Hq Hb).
  - intros code Hp. specialize (Hx code Hp). lia.
Qed.

(** ** What the client prints *)

Lemma ReceiveResponse_from_takes_a_prefix (stream : string) :
  forall cur ending printed,
  exists taken rest,
    fst (ReceiveResponse_from cur stream ending printed)
    = (printed ++ taken)%string
    /\ (taken ++ rest)%string = (cur ++ stream)%string.
Proof.
  induction stream as [|a r IH]; intros cur ending printed.
  - exists EmptyString, cur. simpl. now rewrite !append_nil_r.
  - cbn [ReceiveResponse_from].
    destruct (Ascii.eqb a (ascii_of_nat 10)).
    + destruct (_ =? EOF_LINE).
      * exists EmptyString, (cur ++ String a r)%string. simpl.
        now rewrite append_nil_r.
      * destruct (_ =? TERMINATE_LINE).
        -- exists EmptyString, (cur ++ String a r)%string. simpl.
           now rewrite append_nil_r.
        -- destruct (IH EmptyString ending
                        (printed ++ cur ++ String a EmptyString)%string)
             as (taken & rest & Hf & Ht).
           exists (cur ++ String a EmptyString ++ taken)%string, rest.
           split.
           ++ rewrite Hf. now rewrite !append_assoc.
           ++ rewrite !append_assoc. simpl in *. now rewrite Ht.
    + destruct (IH (cur ++ String a EmptyString)%string ending printed)
        as (taken & rest & Hf & Ht).
      exists taken, rest. split; [exact Hf|].
      rewrite Ht. now rewrite append_assoc.
Qed.

(** X15.  Whatever comes in, what the reader prints is the beginning of it,
    byte for byte: nothing is printed that was not received, nothing out
    of order, nothing twice. *)
Theorem ReceiveResponse_prints_a_prefix (stream : string)
    (ending : ReadEnd) :
  exists rest,
    (fst (ReceiveResponse stream ending) ++ rest)%string = stream.
Proof.
  destruct (ReceiveResponse_from_takes_a_prefix stream EmptyString ending
              EmptyString) as (taken & rest & Hf & Ht).
  exists rest. unfold ReceiveResponse. rewrite Hf. exact Ht.
Qed.

Lemma ReceiveResponse_unterminated (partial : string) :
  one_line partial = true ->
  forall cur ending printed,
    ReceiveResponse_from cur partial ending printed
    = (printed,
       match ending with
       | ReadPending => AwaitingBytes
       | ReadEOF | ReadError => ResponseEnded
       end).
Proof.
  induction partial as [|a r IH]; intros H cur ending printed;
    [reflexivity|].
  simpl in H. apply andb_prop in H as [Ha Hr].
  apply negb_true_iff in Ha.
  cbn [ReceiveResponse_from]. rewrite Ha. now apply IH.
Qed.

(** X16.  A last line that has no newline yet is neither printed nor taken
    for a marker, even if it reads [EOF] or [TERMINATE]: the reader waits
    for more, and if the connection ends there the call returns and the
    line is lost. *)
Theorem unterminated_last_line_is_dropped (ls : list string)
    (partial : string) (ending : ReadEnd) :
  forallb plain ls = true ->
  one_line partial = true ->
  ReceiveResponse (unlines ls ++ partial) ending
  = (unlines ls,
     match ending with
     | ReadPending => AwaitingBytes
     | ReadEOF | ReadError => ResponseEnded
     end).
Proof.
  intros Hls Hp. unfold ReceiveResponse.
  rewrite (ReceiveResponse_plain_lines ls Hls).
  now rewrite ReceiveResponse_unterminated.
Qed.

Lemma unterminated_last_line_is_dropped_witness :
  (forallb plain ["total 4"] = true /\ one_line "TERMINATE" = true)
  /\ ReceiveResponse (unlines ["total 4"] ++ "TERMINATE") ReadEOF
     = (unlines ["total 4"], ResponseEnded).
Proof.
  split; [split; reflexivity|].
  apply (@unterminated_last_line_is_dropped ["total 4"] "TERMINATE"
           ReadEOF); reflexivity.
Defined.


Lemma ReceiveResponse_reads_to_terminate (ls : list string) :
  forallb plain ls = true ->
  forall rest ending,
    ReceiveResponse (unlines ls ++ TERMINATE_LINE ++ rest) ending
    = (unlines ls, ProcessExit 9).
Proof.
  intros H rest ending. unfold ReceiveResponse.
  rewrite (ReceiveResponse_plain_lines ls H).
  unfold TERMINATE_LINE. rewrite append_assoc.
  now rewrite ReceiveResponse_line by reflexivity.
Qed.

(** X18.  The server's timeout writes, as the client reads them after any
    ordinary lines: it prints the notice and exits with status 9, and
    prints nothing of what follows. *)
Theorem timeout_as_the_client_reads_it (ls : list string)
    (later : string) (reading : ReadEnd) :
  forallb plain ls = true ->
  ReceiveResponse (unlines ls ++ wire (handleTimeout []) ++ later) reading
  = ((unlines ls ++ TIMEOUT_NOTICE)%string, ProcessExit 9).
Proof.
  intros Hls.
  set (notice := "Client session duration exceeded. Disconnecting...").
  assert (Hall : forallb plain (ls ++ [notice]) = true).
  { rewrite forallb_app, Hls. reflexivity. }
  pose proof (@ReceiveResponse_reads_to_terminate (ls ++ [notice]) Hall
                later reading) as Hr.
  rewrite unlines_snoc in Hr.
  replace (unlines ls ++ wire (handleTimeout []) ++ later)%string
    with ((unlines ls ++ notice ++ nl) ++ TERMINATE_LINE ++ later)%string.
  - exact Hr.
  - unfold handleTimeout. cbn [app wire fold_right].
    unfold TIMEOUT_NOTICE. fold notice.
    now rewrite ?append_assoc, ?append_nil_r.
Qed.

Lemma timeout_as_the_client_reads_it_witness :
  forallb plain ["a"; "b"] = true
  /\ ReceiveResponse
       (unlines ["a"; "b"] ++ wire (handleTimeout []) ++ "rest") ReadPending
     = ((unlines ["a"; "b"] ++ TIMEOUT_NOTICE)%string, ProcessExit 9).
Proof.
  split; [reflexivity|].
  apply (@timeout_as_the_client_reads_it ["a"; "b"] "rest" ReadPending).
  reflexivity.
Defined.

(** ** What the client sends *)

Lemma doPrintf_literal (s : string) :
  Fmt.literal s = true -> Fmt.doPrintf Fmt.InText s = Some s.
Proof.
  induction s as [|c r IH]; intros H; [reflexivity|].
  simpl in H. apply andb_prop in H as [Hc Hr].
  apply negb_true_iff in Hc.
  cbn [Fmt.doPrintf]. rewrite Hc, (IH Hr). reflexivity.
Qed.

Lemma doPrintf_after_literal (pre s : string) :
  Fmt.literal pre = true ->
  Fmt.doPrintf Fmt.InText (pre ++ s)
  = option_map (append pre) (Fmt.doPrintf Fmt.InText s).
Proof.
  induction pre as [|c r IH]; intros H.
  - simpl. now destruct (Fmt.doPrintf Fmt.InText s).
  - simpl in H. apply andb_prop in H as [Hc Hr].
    apply negb_true_iff in Hc.
    cbn [append Fmt.doPrintf]. rewrite Hc, (IH Hr).
    now destruct (Fmt.doPrintf Fmt.InText s).
Qed.

Lemma literal_append (a b : string) :
  Fmt.literal (a ++ b) = Fmt.literal a && Fmt.literal b.
Proof.
  induction a as [|c r IH]; [reflexivity|].
  simpl. rewrite IH. now rewrite andb_assoc.
Qed.

Lemma doPrintf_percent (r : string) :
  Fmt.doPrintf Fmt.InText (String Fmt.percent r)
  = Fmt.doPrintf Fmt.InFlags r.
Proof. reflexivity. Qed.

Lemma doPrintf_plain_verb (c : ascii) (r : string) :
  Fmt.plain_verb c = true ->
  Fmt.doPrintf Fmt.InFlags (String c r)
  = option_map (fun t => ("%!" ++ String c "(MISSING)" ++ t)%string)
               (Fmt.doPrintf Fmt.InText r).
Proof.
  unfold Fmt.plain_verb. intros H.
  apply andb_prop in H as [H Hlt]. apply andb_prop in H as [H Hpc].
  apply andb_prop in H as [H Hdot]. apply andb_prop in H as [H Hst].
  apply andb_prop in H as [H Hbr]. apply andb_prop in H as [Hfl Hdi].
  apply negb_true_iff in Hfl, Hdi, Hbr, Hst, Hdot, Hpc.
  apply Nat.ltb_lt in Hlt.
  cbn [Fmt.doPrintf]. rewrite Hfl, Hbr, Hst. cbn [orb].
  rewrite Hdi, Hdot. unfold Fmt.verb.
  replace (Nat.leb 128 (nat_of_ascii c)) with false
    by (symmetry; apply Nat.leb_gt; exact Hlt).
  now rewrite Hpc.
Qed.

(** X19.  A command without a percent sign goes out as it was typed, followed
    by a newline. *)
Theorem SendCommand_sends_a_literal_command_verbatim (command : string) :
  Fmt.literal command = true ->
  SendCommand command WriteOk = Sent (command ++ nl).
Proof.
  intros H. unfold SendCommand, Fmt.Sprintf.
  rewrite doPrintf_literal; [reflexivity|].
  rewrite literal_append, H. reflexivity.
Qed.

Lemma SendCommand_sends_a_literal_command_verbatim_witness :
  Fmt.literal "ls -l /tmp" = true
  /\ SendCommand "ls -l /tmp" WriteOk = Sent ("ls -l /tmp" ++ nl).
Proof.
  split; [reflexivity|].
  apply (SendCommand_sends_a_literal_command_verbatim "ls -l /tmp").
  reflexivity.
Defined.

(** X20.  The command is used as the format of [Fprintf], which has no
    operand to print.  A percent sign followed by a verb character goes
    out as the text [%!v(MISSING)] with that character for [v]; a doubled
    percent sign goes out as one; and a percent sign at the end of the
    command takes the newline for its verb, so that the line the server
    reads ends after [%!] and the text [(MISSING)] is left over as the
    beginning of the client's next line. *)
Theorem SendCommand_rewrites_percent_signs (before after : string)
    (c : ascii) :
  Fmt.literal before = true ->
  Fmt.literal after = true ->
  Fmt.plain_verb c = true ->
  SendCommand (before ++ String Fmt.percent (String c after)) WriteOk
  = Sent (before ++ "%!" ++ String c "(MISSING)" ++ after ++ nl)
  /\ SendCommand (before ++ "%%" ++ after) WriteOk
     = Sent (before ++ "%" ++ after ++ nl)
  /\ SendCommand (before ++ "%") WriteOk
     = Sent (before ++ "%!" ++ nl ++ "(MISSING)").
Proof.
  intros Hb Ha Hc. unfold SendCommand, Fmt.Sprintf.
  assert (Han : Fmt.doPrintf Fmt.InText (after ++ nl)
                = Some (after ++ nl)%string).
  { apply doPrintf_literal. rewrite literal_append, Ha. reflexivity. }
  repeat split.
  - rewrite append_assoc, (doPrintf_after_literal before _ Hb).
    cbn [append]. rewrite doPrintf_percent.
    rewrite (doPrintf_plain_verb c _ Hc), Han. reflexivity.
  - rewrite append_assoc, (doPrintf_after_literal before _ Hb).
    change (("%%" ++ after) ++ nl)%string
      with (String Fmt.percent (String Fmt.percent (after ++ nl))).
    rewrite doPrintf_percent.
    change (Fmt.doPrintf Fmt.InFlags (String Fmt.percent (after ++ nl)))
      with (option_map (String Fmt.percent)
              (Fmt.doPrintf Fmt.InText (after ++ nl))).
    rewrite Han. reflexivity.
  - rewrite append_assoc, (doPrintf_after_literal before _ Hb). reflexivity.
Qed.

Lemma SendCommand_rewrites_percent_signs_witness :
  (Fmt.literal "date +" = true /\ Fmt.literal " -u" = true
   /\ Fmt.plain_verb "s" = true)
  /\ SendCommand ("date +" ++ String Fmt.percent (String "s" " -u")) WriteOk
     = Sent ("date +" ++ "%!" ++ String "s" "(MISSING)" ++ " -u" ++ nl)
  /\ SendCommand ("date +" ++ "%%" ++ " -u") WriteOk
     = Sent ("date +" ++ "%" ++ " -u" ++ nl)
  /\ SendCommand ("date +" ++ "%") WriteOk
     = Sent ("date +" ++ "%!" ++ nl ++ "(MISSING)").
Proof.
  split; [repeat split; reflexivity|].
  apply (@SendCommand_rewrites_percent_signs "date +" " -u" "s");
    reflexivity.
Defined.

(** ** How the client ends *)




